(** * zRadioModern: the core of the add-on, embedded and verified

    A shallow embedding of the parts of [zr_core] that carry logic of their
    own: the audio player with its recording scheduler ([player.py]), the
    event bus ([events.py]), the RadioBrowser client with server failover
    ([api_client.py]), the favourites table ([database.py]) and the plugin
    manager ([plugin_manager.py]).

    Python integers are [Z], [str] is [string], [datetime] values are points
    on an integer time line (they are only compared), dictionaries are
    [gmap]s, and Python objects that are mutated through more than one
    reference live in an explicit object store. *)

From stdpp Require Import gmap strings list fin_maps sorting.
From Stdlib Require Import ZArith Lia.
From Equations Require Import Equations.
From Equations.Prop Require Import Logic.

Local Open Scope Z_scope.

(** ** player.py *)
Module Player.

Inductive PlayerState := STOPPED | PLAYING | BUFFERING | PAUSED | ERROR.

Inductive RecordingState := IDLE | RECORDING | SCHEDULED.

#[global] Instance RecordingState_eq_dec : EqDecision RecordingState.
Proof. solve_decision. Defined.

(** [class ScheduledRecording]; [__init__] sets [active = True]. *)
Record ScheduledRecording := mkScheduledRecording {
  station_url : string;
  station_name : string;
  start_time : Z;
  end_time : Z;
  output_path : string;
  active : bool }.

(** The fields of [vlc_wrapper.VLCPlayer] that the player reads or writes
    (the wrapper class [VLC] forwards every access to this backend). *)
Record VLCPlayer := mkVLCPlayer {
  vlc_volume : Z;
  vlc_muted : bool;
  _recording : bool;
  _record_file : string }.

(** Daemon threads the player has started and that have not run yet. *)
Inductive Thread :=
| RecorderThread (url output_path : string)
| SchedulerThread.

(** [objects] holds the [ScheduledRecording] objects, each under the number
    that stands for its identity; [_scheduled_recordings] is a list of such
    references. *)
Record AudioPlayer := mkAudioPlayer {
  _player : option VLCPlayer;
  _volume : Z;
  _muted : bool;
  _current_url : string;
  _recording_state : RecordingState;
  _recording_start_time : option Z;
  objects : gmap nat ScheduledRecording;
  _scheduled_recordings : list nat;
  _scheduler_running : bool;
  spawned : list Thread }.

(** What the process environment decides: whether the VLC bindings were
    imported, whether [vlc.VLC(video=False)] can be constructed, and whether
    libvlc manages to start a recording of a given url to a given file. *)
Record Env := mkEnv {
  VLC_AVAILABLE : bool;
  vlc_starts : bool;
  vlc_records : string -> string -> bool }.

(** *** Field updates *)

Definition with_player (b : option VLCPlayer) (p : AudioPlayer) : AudioPlayer :=
  mkAudioPlayer b (_volume p) (_muted p) (_current_url p) (_recording_state p)
    (_recording_start_time p) (objects p) (_scheduled_recordings p)
    (_scheduler_running p) (spawned p).

Definition with_volume (v : Z) (p : AudioPlayer) : AudioPlayer :=
  mkAudioPlayer (_player p) v (_muted p) (_current_url p) (_recording_state p)
    (_recording_start_time p) (objects p) (_scheduled_recordings p)
    (_scheduler_running p) (spawned p).

Definition with_recording (s : RecordingState) (t : option Z) (p : AudioPlayer)
  : AudioPlayer :=
  mkAudioPlayer (_player p) (_volume p) (_muted p) (_current_url p) s t
    (objects p) (_scheduled_recordings p) (_scheduler_running p) (spawned p).

Definition with_objects (o : gmap nat ScheduledRecording) (p : AudioPlayer)
  : AudioPlayer :=
  mkAudioPlayer (_player p) (_volume p) (_muted p) (_current_url p)
    (_recording_state p) (_recording_start_time p) o (_scheduled_recordings p)
    (_scheduler_running p) (spawned p).

Definition with_scheduled (l : list nat) (p : AudioPlayer) : AudioPlayer :=
  mkAudioPlayer (_player p) (_volume p) (_muted p) (_current_url p)
    (_recording_state p) (_recording_start_time p) (objects p) l
    (_scheduler_running p) (spawned p).

Definition with_scheduler_running (f : bool) (p : AudioPlayer) : AudioPlayer :=
  mkAudioPlayer (_player p) (_volume p) (_muted p) (_current_url p)
    (_recording_state p) (_recording_start_time p) (objects p)
    (_scheduled_recordings p) f (spawned p).

Definition spawn (t : Thread) (p : AudioPlayer) : AudioPlayer :=
  mkAudioPlayer (_player p) (_volume p) (_muted p) (_current_url p)
    (_recording_state p) (_recording_start_time p) (objects p)
    (_scheduled_recordings p) (_scheduler_running p) (spawned p ++ [t]).

(** *** The VLC backend *)

(** [VLCPlayer.__init__]: volume 100, not muted, not recording. *)
Definition VLCPlayer_init : VLCPlayer := mkVLCPlayer 100 false false "".

(** [VLCPlayer.volume] setter. *)
Definition VLCPlayer_set_volume (value : Z) (b : VLCPlayer) : VLCPlayer :=
  mkVLCPlayer (Z.max 0 (Z.min 100 value)) (vlc_muted b) (_recording b)
    (_record_file b).

(** [VLCPlayer.mute] setter. *)
Definition VLCPlayer_set_mute (value : bool) (b : VLCPlayer) : VLCPlayer :=
  mkVLCPlayer (vlc_volume b) value (_recording b) (_record_file b).

(** [VLCPlayer.start_recording]: refused while a recording runs; otherwise
    libvlc decides. *)
Definition VLCPlayer_start_recording (env : Env) (url output_path : string)
    (b : VLCPlayer) : VLCPlayer * bool :=
  if _recording b then (b, false)
  else if vlc_records env url output_path
       then (mkVLCPlayer (vlc_volume b) (vlc_muted b) true output_path, true)
       else (mkVLCPlayer (vlc_volume b) (vlc_muted b) false (_record_file b),
             false).

(** [VLCPlayer.stop_recording]: the saved file, or [None] when idle. *)
Definition VLCPlayer_stop_recording (b : VLCPlayer)
  : VLCPlayer * option string :=
  if negb (_recording b) then (b, None)
  else (mkVLCPlayer (vlc_volume b) (vlc_muted b) false "",
        Some (_record_file b)).

(** *** AudioPlayer *)

(** [AudioPlayer.__init__], up to and including [_start_scheduler()]. *)
Definition AudioPlayer_init : AudioPlayer :=
  mkAudioPlayer None 50 false "" IDLE None ∅ [] true [SchedulerThread].

(** [volume] setter. *)
Definition set_volume (value : Z) (p : AudioPlayer) : AudioPlayer :=
  let v := Z.max 0 (Z.min 100 value) in
  with_player (VLCPlayer_set_volume v <$> _player p) (with_volume v p).

Definition set_volume_percent (percent : Z) (p : AudioPlayer) : AudioPlayer :=
  set_volume percent p.

Definition volume_up (step : Z) (p : AudioPlayer) : AudioPlayer * Z :=
  let p' := set_volume (Z.min 100 (_volume p + step)) p in
  (p', _volume p').

Definition volume_down (step : Z) (p : AudioPlayer) : AudioPlayer * Z :=
  let p' := set_volume (Z.max 0 (_volume p - step)) p in
  (p', _volume p').

(** [is_recording] property. *)
Definition is_recording (p : AudioPlayer) : bool :=
  match _player p with
  | Some b => _recording b
  | None => bool_decide (_recording_state p = RECORDING)
  end.

(** [recording_file] property. *)
Definition recording_file (p : AudioPlayer) : string :=
  match _player p with
  | Some b => _record_file b
  | None => ""
  end.

(** Reading [r.active] through a reference. *)
Definition is_active (p : AudioPlayer) (l : nat) : bool :=
  match objects p !! l with
  | Some r => active r
  | None => false
  end.

(** [scheduled_recordings] property: a new list of the same objects. *)
Definition scheduled_recordings (p : AudioPlayer) : list nat :=
  filter (λ l, is_active p l = true) (_scheduled_recordings p).

(** The objects behind a list of references. *)
Definition deref (p : AudioPlayer) (ls : list nat) : list ScheduledRecording :=
  omap (λ l, objects p !! l) ls.

(** [_init_player]. *)
Definition _init_player (env : Env) (p : AudioPlayer) : AudioPlayer * bool :=
  if negb (VLC_AVAILABLE env) then (p, false)
  else match _player p with
       | Some _ => (p, true)
       | None =>
           if vlc_starts env
           then (with_player
                   (Some (VLCPlayer_set_mute (_muted p)
                            (VLCPlayer_set_volume (_volume p) VLCPlayer_init)))
                   p, true)
           else (with_player None p, false)
       end.

(** [_start_recording_sync]. *)
Definition _start_recording_sync (env : Env) (now : Z) (url output_path : string)
    (p : AudioPlayer) : AudioPlayer * bool :=
  match _player p with
  | None => (p, false)
  | Some b =>
      let '(b', result) := VLCPlayer_start_recording env url output_path b in
      if result
      then (with_recording RECORDING (Some now) (with_player (Some b') p), true)
      else (with_player (Some b') p, false)
  end.

(** [_start_recording_async]: the body of a recorder thread. *)
Definition _start_recording_async (env : Env) (url output_path : string)
    (p : AudioPlayer) : AudioPlayer :=
  match _player p with
  | None => with_recording IDLE None p
  | Some b =>
      let '(b', result) := VLCPlayer_start_recording env url output_path b in
      if result then with_player (Some b') p
      else with_recording IDLE None (with_player (Some b') p)
  end.

(** [start_recording(output_path, url=None, async_record=True)];
    [url or self._current_url] takes the current url when [url] is [None]
    or empty. *)
Definition start_recording (env : Env) (now : Z) (output_path : string)
    (url : option string) (async_record : bool) (p : AudioPlayer)
  : AudioPlayer * bool :=
  let '(p1, ok) := _init_player env p in
  if negb ok then (p1, false)
  else
    let record_url :=
      match url with
      | Some u => if bool_decide (u = "") then _current_url p1 else u
      | None => _current_url p1
      end in
    if bool_decide (record_url = "") then (p1, false)
    else if async_record
         then (spawn (RecorderThread record_url output_path)
                 (with_recording RECORDING (Some now) p1), true)
         else _start_recording_sync env now record_url output_path p1.

(** [stop_recording]. *)
Definition stop_recording (p : AudioPlayer) : AudioPlayer * option string :=
  match _player p with
  | None => (p, None)
  | Some b =>
      let '(b', result) := VLCPlayer_stop_recording b in
      (with_recording IDLE None (with_player (Some b') p), result)
  end.

(** [schedule_recording]; [now] is the value of [datetime.now()]. The new
    object gets a reference no live object has. *)
Definition schedule_recording (now : Z) (station_url station_name : string)
    (start_time end_time : Z) (output_path : string) (p : AudioPlayer)
  : AudioPlayer * bool :=
  if bool_decide (start_time >= end_time) then (p, false)
  else if bool_decide (start_time <= now) then (p, false)
  else
    let scheduled :=
      mkScheduledRecording station_url station_name start_time end_time
        output_path true in
    let l := fresh (dom (objects p)) in
    (with_scheduled (_scheduled_recordings p ++ [l])
       (with_objects (<[l := scheduled]> (objects p)) p), true).

(** [r.active = False] on the object behind [l]. *)
Definition deactivate (r : ScheduledRecording) : ScheduledRecording :=
  mkScheduledRecording (station_url r) (station_name r) (start_time r)
    (end_time r) (output_path r) false.

Definition set_inactive (l : nat) (p : AudioPlayer) : AudioPlayer :=
  with_objects (alter deactivate l (objects p)) p.

(** [cancel_scheduled_recording]. The comprehension behind
    [self.scheduled_recordings] builds a new list, but of the same objects,
    so the assignment is seen through [_scheduled_recordings] too. *)
Definition cancel_scheduled_recording (index : Z) (p : AudioPlayer)
  : AudioPlayer * bool :=
  let active_recordings := scheduled_recordings p in
  if bool_decide (0 <= index < Z.of_nat (length active_recordings)) then
    match active_recordings !! Z.to_nat index with
    | Some l => (set_inactive l p, true)
    | None => (p, false)
    end
  else (p, false).

(** *** The recording scheduler *)

(** The calls a poll makes on the player itself. *)
Inductive Call :=
| CallStartRecording (output_path url : string)
| CallStopRecording.

#[global] Instance Call_eq_dec : EqDecision Call.
Proof. solve_decision. Defined.

(** One turn of [for recording in self._scheduled_recordings] in
    [_scheduler_loop], on the object behind [l]: the player afterwards and
    the calls made in this turn. The clock is read once per poll. *)
Definition visit (env : Env) (now : Z) (p : AudioPlayer) (l : nat)
  : AudioPlayer * list Call :=
  match objects p !! l with
  | None => (p, [])
  | Some recording =>
      if negb (active recording) then (p, [])
      else if bool_decide (start_time recording <= now < end_time recording)
      then
        if negb (is_recording p)
        then (fst (start_recording env now (output_path recording)
                     (Some (station_url recording)) true p),
              [CallStartRecording (output_path recording)
                 (station_url recording)])
        else (p, [])
      else if bool_decide (now >= end_time recording)
      then
        let '(p1, calls) :=
          if is_recording p
             && bool_decide (recording_file p = output_path recording)
          then (fst (stop_recording p), [CallStopRecording])
          else (p, []) in
        (set_inactive l p1, calls)
      else (p, [])
  end.

(** The whole [for] loop over a list of references. *)
Fixpoint visit_all (env : Env) (now : Z) (ls : list nat) (p : AudioPlayer)
  : AudioPlayer * list Call :=
  match ls with
  | [] => (p, [])
  | l :: ls' =>
      let '(p1, calls1) := visit env now p l in
      let '(p2, calls2) := visit_all env now ls' p1 in
      (p2, calls1 ++ calls2)
  end.

(** The body of [while self._scheduler_running] up to the sleep: the loop
    over the scheduled recordings, then the purge of the inactive ones. *)
Definition _scheduler_poll (env : Env) (now : Z) (p : AudioPlayer)
  : AudioPlayer * list Call :=
  let '(p1, calls) := visit_all env now (_scheduled_recordings p) p in
  (with_scheduled
     (filter (λ l, is_active p1 l = true) (_scheduled_recordings p1)) p1,
   calls).

(** [_start_scheduler]. *)
Definition _start_scheduler (p : AudioPlayer) : AudioPlayer :=
  if _scheduler_running p then p
  else spawn SchedulerThread (with_scheduler_running true p).

(** [_stop_scheduler] (the bounded [join] has no effect on the state). *)
Definition _stop_scheduler (p : AudioPlayer) : AudioPlayer :=
  with_scheduler_running false p.

(** What the scheduler thread does, in order. *)
Inductive SchedEvent :=
| EvPoll (now : Z) (calls : list Call)
| EvSleep (seconds : Z).

(** The world around the scheduler thread: what [datetime.now()] returns
    in the [i]-th iteration, and what the other threads did to the player
    while the scheduler slept in that iteration. *)
Record World := mkWorld {
  clock : nat -> Z;
  during_sleep : nat -> AudioPlayer -> AudioPlayer }.

(** [_scheduler_loop], from its [i]-th test of the flag on. [fuel] bounds
    the number of iterations that are followed. *)
Fixpoint _scheduler_loop (env : Env) (w : World) (fuel : nat) (i : nat)
    (p : AudioPlayer) : option (AudioPlayer * list SchedEvent) :=
  match fuel with
  | O => None
  | S fuel' =>
      if _scheduler_running p then
        let now := clock w i in
        let '(p1, calls) := _scheduler_poll env now p in
        let p2 := during_sleep w i p1 in
        match _scheduler_loop env w fuel' (S i) p2 with
        | Some (p3, events) =>
            Some (p3, EvPoll now calls :: EvSleep 10 :: events)
        | None => None
        end
      else Some (p, [])
  end.

(** The player as the scheduler finds it [k] iterations after its [i]-th
    test of the flag, when it started that test with [p]. *)
Fixpoint state_after (env : Env) (w : World) (i k : nat) (p : AudioPlayer)
  : AudioPlayer :=
  match k with
  | O => p
  | S k' =>
      state_after env w (S i) k'
        (during_sleep w i (fst (_scheduler_poll env (clock w i) p)))
  end.

(** What the scheduler thread does in those [k] iterations. *)
Fixpoint events_after (env : Env) (w : World) (i k : nat) (p : AudioPlayer)
  : list SchedEvent :=
  match k with
  | O => []
  | S k' =>
      EvPoll (clock w i) (snd (_scheduler_poll env (clock w i) p))
      :: EvSleep 10
      :: events_after env w (S i) k'
           (during_sleep w i (fst (_scheduler_poll env (clock w i) p)))
  end.

(** *** Well-formed players *)

(** Every reference in the list points to an object, and no object is
    listed twice: [schedule_recording] is the only place that adds to the
    list, and it adds a new object each time. *)
Definition wf (p : AudioPlayer) : Prop :=
  NoDup (_scheduled_recordings p)
  ∧ Forall (λ l, is_Some (objects p !! l)) (_scheduled_recordings p).

(** The operations on the volume, for the invariant below. *)
Inductive VolumeOp :=
| OpAssign (value : Z)
| OpSetPercent (percent : Z)
| OpUp (step : Z)
| OpDown (step : Z).

Definition run_volume_op (p : AudioPlayer) (op : VolumeOp) : AudioPlayer :=
  match op with
  | OpAssign v => set_volume v p
  | OpSetPercent v => set_volume_percent v p
  | OpUp s => fst (volume_up s p)
  | OpDown s => fst (volume_down s p)
  end.

(** *** Volume *)

Lemma set_volume_value value p :
  _volume (set_volume value p) = Z.max 0 (Z.min 100 value).
Proof. reflexivity. Qed.

Lemma set_volume_range value p : 0 <= _volume (set_volume value p) <= 100.
Proof. rewrite set_volume_value. lia. Qed.

Lemma run_volume_op_range p op : 0 <= _volume (run_volume_op p op) <= 100.
Proof. destruct op; apply set_volume_range. Qed.

Lemma run_volume_ops_range ops : ∀ p,
  0 <= _volume p <= 100 → 0 <= _volume (foldl run_volume_op p ops) <= 100.
Proof.
  induction ops as [|op ops IH]; intros p Hp; simpl; [exact Hp|].
  apply IH, run_volume_op_range.
Qed.

(** The backend, once it exists, is kept at the player's volume. *)
Lemma set_volume_backend value p b :
  _player (set_volume value p) = Some b → vlc_volume b = _volume (set_volume value p).
Proof.
  unfold set_volume; simpl. destruct (_player p); simpl; [|discriminate].
  intros [= <-]. simpl. lia.
Qed.

(** C9: the setter stores [max(0, min(100, value))]; whatever sequence of
    assignments, [set_volume_percent], [volume_up] and [volume_down] calls is
    run, with any step, the stored volume is between 0 and 100, from the
    initial player and from any player once one of them has run; and
    [volume_up] and [volume_down] return the volume they stored. *)
Theorem volume_always_in_range :
  (∀ value p, _volume (set_volume value p) = Z.max 0 (Z.min 100 value)
              ∧ 0 <= _volume (set_volume value p) <= 100)
  ∧ (∀ ops, 0 <= _volume (foldl run_volume_op AudioPlayer_init ops) <= 100)
  ∧ (∀ p op ops, 0 <= _volume (foldl run_volume_op p (op :: ops)) <= 100)
  ∧ (∀ step p, snd (volume_up step p) = _volume (fst (volume_up step p))
               ∧ snd (volume_up step p) = Z.max 0 (Z.min 100 (_volume p + step)))
  ∧ (∀ step p, snd (volume_down step p) = _volume (fst (volume_down step p))
               ∧ snd (volume_down step p) = Z.min 100 (Z.max 0 (_volume p - step))).
Proof.
  split; [|split; [|split; [|split]]].
  - intros value p. split; [reflexivity | apply set_volume_range].
  - intros ops. apply run_volume_ops_range. simpl. lia.
  - intros p op ops. simpl. apply run_volume_ops_range, run_volume_op_range.
  - intros step p. split; [reflexivity | simpl; lia].
  - intros step p. split; [reflexivity | simpl; lia].
Qed.

(** *** Scheduling *)

Lemma filter_ext_elem {A} (P1 P2 : A → Prop)
    `{!∀ x, Decision (P1 x), !∀ x, Decision (P2 x)} (l : list A) :
  (∀ x, x ∈ l → (P1 x ↔ P2 x)) → filter P1 l = filter P2 l.
Proof.
  induction l as [|a l IH]; intros Hiff; [reflexivity|].
  assert (Hl : filter P1 l = filter P2 l).
  { apply IH. intros x Hx. apply Hiff. by right. }
  pose proof (Hiff a (list_elem_of_here a l)) as Ha.
  destruct (decide (P1 a)).
  - rewrite !filter_cons_True by tauto. by rewrite Hl.
  - rewrite !filter_cons_False by tauto. exact Hl.
Qed.

Lemma wf_init : wf AudioPlayer_init.
Proof. split; constructor. Qed.

Lemma fresh_object p : objects p !! fresh (dom (objects p)) = None.
Proof. apply not_elem_of_dom, is_fresh. Qed.

Lemma wf_not_listed p l : wf p → objects p !! l = None → l ∉ _scheduled_recordings p.
Proof.
  intros [_ Hall] Hnone Hin. rewrite Forall_forall in Hall.
  destruct (Hall l Hin) as [r Hr]. congruence.
Qed.

Lemma deref_insert_fresh p l r ls :
  l ∉ ls → omap (λ l', <[l := r]> (objects p) !! l') ls = deref p ls.
Proof.
  unfold deref. induction ls as [|a ls IH]; intros Hl; [reflexivity|].
  apply not_elem_of_cons in Hl as [Hne Hl].
  cbn [omap list_omap].
  rewrite lookup_insert_ne by done. rewrite IH by done. reflexivity.
Qed.

Lemma schedule_recording_ok now url name st en path p :
  snd (schedule_recording now url name st en path p) = true ↔ st < en ∧ now < st.
Proof.
  unfold schedule_recording. repeat case_bool_decide; simpl; split;
    try discriminate; try lia; tauto.
Qed.

Lemma wf_schedule_recording now url name st en path p :
  wf p → wf (fst (schedule_recording now url name st en path p)).
Proof.
  intros Hwf. unfold schedule_recording.
  repeat case_bool_decide; simpl; try exact Hwf.
  pose proof (wf_not_listed _ _ Hwf (fresh_object p)) as Hnew.
  destruct Hwf as [Hnd Hall]. split; simpl.
  - apply NoDup_app. repeat split; [done| |apply NoDup_singleton].
    intros x Hx ->%list_elem_of_singleton. done.
  - apply Forall_app. split.
    + eapply Forall_impl; [exact Hall|]. intros x [r Hr]; simpl.
      destruct (decide (fresh (dom (objects p)) = x)) as [->|Hne].
      * rewrite lookup_insert_eq. eauto.
      * rewrite lookup_insert_ne by done. eauto.
    + constructor; [|constructor]. rewrite lookup_insert_eq. eauto.
Qed.

(** C3: [schedule_recording] returns [True] exactly when
    [start_time < end_time] and [start_time] is after [now]. Then it has
    created one new object, active and with the given url, name, window and
    output path, and appended it to the list, so the list of scheduled
    recordings is the old one followed by the new recording. Otherwise it
    returns [False] and the player is unchanged. *)
Theorem schedule_recording_spec now url name st en path p :
  let p' := fst (schedule_recording now url name st en path p) in
  let ok := snd (schedule_recording now url name st en path p) in
  let new := mkScheduledRecording url name st en path true in
  (ok = true ↔ st < en ∧ st > now)
  ∧ (ok = true →
       ∃ l, objects p !! l = None
            ∧ objects p' = <[l := new]> (objects p)
            ∧ _scheduled_recordings p' = _scheduled_recordings p ++ [l]
            ∧ (wf p →
                 deref p' (_scheduled_recordings p')
                 = deref p (_scheduled_recordings p) ++ [new]
                 ∧ deref p' (scheduled_recordings p')
                   = deref p (scheduled_recordings p) ++ [new]))
  ∧ (ok = false → p' = p).
Proof.
  intros p' ok new. split; [|split].
  - subst ok. rewrite schedule_recording_ok. lia.
  - subst p' ok new. unfold schedule_recording.
    repeat case_bool_decide; simpl; try discriminate. intros _.
    exists (fresh (dom (objects p))).
    split; [apply fresh_object|]. split; [reflexivity|]. split; [reflexivity|].
    intros Hwf. pose proof (wf_not_listed _ _ Hwf (fresh_object p)) as Hnew.
    set (l := fresh (dom (objects p))) in *.
    set (new := mkScheduledRecording url name st en path true).
    split.
    + unfold deref at 1; simpl. rewrite omap_app; simpl.
      rewrite lookup_insert_eq. rewrite deref_insert_fresh by done. reflexivity.
    + unfold scheduled_recordings at 1. cbn [_scheduled_recordings with_scheduled].
      rewrite filter_app, filter_cons_True, filter_nil
        by (unfold is_active; simpl; by rewrite lookup_insert_eq).
      rewrite (filter_ext_elem _ (λ l0, is_active p l0 = true)).
      * fold (scheduled_recordings p). unfold deref at 1; simpl. rewrite omap_app; cbn [omap list_omap].
        rewrite lookup_insert_eq. f_equal. apply deref_insert_fresh.
        intros Hin%list_elem_of_filter. tauto.
      * intros x Hx. unfold is_active; simpl.
        rewrite lookup_insert_ne; [done|]. intros ->. done.
  - subst p' ok. unfold schedule_recording.
    repeat case_bool_decide; simpl; try discriminate; reflexivity.
Qed.

(** *** Cancelling *)

Lemma filter_delete_NoDup {A} (P : A → Prop) `{!∀ x, Decision (P x)}
    `{!EqDecision A} (ls : list A) : ∀ i l,
  NoDup ls → filter P ls !! i = Some l →
  filter (λ x, P x ∧ x ≠ l) ls = delete i (filter P ls).
Proof.
  induction ls as [|a ls IH]; intros i l Hnd Hi; [discriminate|].
  apply NoDup_cons in Hnd as [Ha Hnd].
  destruct (decide (P a)) as [HPa|HPa].
  - rewrite (filter_cons_True P) in * by done. destruct i as [|j]; simpl in Hi.
    + injection Hi as ->. rewrite filter_cons_False by tauto. simpl.
      apply filter_ext_elem. intros x Hx. split; [tauto|].
      intros HPx. split; [done|]. intros ->. done.
    + assert (a ≠ l).
      { intros ->. apply Ha. apply list_elem_of_lookup_2 in Hi.
        apply list_elem_of_filter in Hi. tauto. }
      rewrite filter_cons_True by done. simpl. f_equal. by apply IH.
  - rewrite (filter_cons_False P) in * by done.
    rewrite filter_cons_False by tauto. by apply IH.
Qed.

Lemma is_active_set_inactive p l x :
  is_active (set_inactive l p) x = true ↔ is_active p x = true ∧ x ≠ l.
Proof.
  unfold is_active, set_inactive; simpl. rewrite lookup_alter.
  case_decide as Hx.
  - subst x. destruct (objects p !! l); simpl; split; try discriminate;
      intros [_ ?]; done.
  - split; [intros ?; split; [done | congruence] | tauto].
Qed.

Lemma wf_set_inactive p l : wf p → wf (set_inactive l p).
Proof.
  intros [Hnd Hall]. split; [exact Hnd|]. simpl.
  eapply Forall_impl; [exact Hall|]. intros x [r Hr]; simpl.
  rewrite lookup_alter. case_decide; [subst; rewrite Hr|]; eauto.
Qed.

Lemma wf_cancel_scheduled_recording index p :
  wf p → wf (fst (cancel_scheduled_recording index p)).
Proof.
  intros Hwf. unfold cancel_scheduled_recording.
  case_bool_decide; [|exact Hwf].
  destruct (_ !! _); [apply wf_set_inactive|]; exact Hwf.
Qed.

(** C10: on a player whose list holds each scheduled object once,
    [cancel_scheduled_recording index] returns [True] exactly when
    [0 <= index] and [index] is below the number of active scheduled
    recordings. Then the object at that position of the list of active
    recordings becomes inactive, every other object is as before, and the
    [scheduled_recordings] property returns the old list without that
    position, one element shorter. Otherwise it returns [False] and
    nothing changes. *)
Theorem cancel_scheduled_recording_spec index p :
  wf p →
  let p' := fst (cancel_scheduled_recording index p) in
  let ok := snd (cancel_scheduled_recording index p) in
  (ok = true ↔ 0 <= index < Z.of_nat (length (scheduled_recordings p)))
  ∧ (ok = true →
       ∃ l r, scheduled_recordings p !! Z.to_nat index = Some l
              ∧ objects p !! l = Some r ∧ active r = true
              ∧ objects p' !! l = Some (deactivate r)
              ∧ (∀ l', l' ≠ l → objects p' !! l' = objects p !! l')
              ∧ _scheduled_recordings p' = _scheduled_recordings p
              ∧ scheduled_recordings p'
                = delete (Z.to_nat index) (scheduled_recordings p)
              ∧ length (scheduled_recordings p)
                = S (length (scheduled_recordings p')))
  ∧ (ok = false → p' = p).
Proof.
  intros Hwf p' ok. subst p' ok. unfold cancel_scheduled_recording.
  case_bool_decide as Hrange.
  - assert (Hlt : (Z.to_nat index < length (scheduled_recordings p))%nat) by lia.
    apply lookup_lt_is_Some_2 in Hlt as [l Hl]. rewrite Hl. simpl.
    split; [tauto|]. split; [|discriminate]. intros _.
    pose proof (list_elem_of_lookup_2 _ _ _ Hl) as Hin.
    apply list_elem_of_filter in Hin as [Hact Hin].
    unfold is_active in Hact. destruct (objects p !! l) as [r|] eqn:Hr;
      [|discriminate].
    exists l, r. split; [reflexivity|]. split; [exact Hr|]. split; [exact Hact|].
    split; [by rewrite lookup_alter_eq, Hr|].
    split; [intros l' Hne; by rewrite lookup_alter_ne|].
    split; [reflexivity|].
    assert (Heq : scheduled_recordings (set_inactive l p)
                  = delete (Z.to_nat index) (scheduled_recordings p)).
    { unfold scheduled_recordings in *.
      cbn [_scheduled_recordings set_inactive with_objects].
      rewrite <- (filter_delete_NoDup _ _ _ l (proj1 Hwf) Hl).
      apply list_filter_iff. intros x. apply is_active_set_inactive. }
    split; [exact Heq|]. rewrite Heq, length_delete by eauto.
    apply lookup_lt_Some in Hl. lia.
  - simpl. split; [split; [discriminate | tauto]|]. split; [discriminate|done].
Qed.

(** *** One poll of the scheduler *)

Ltac break_branches :=
  repeat (simpl;
          match goal with
          | |- context [if ?b then _ else _] => destruct b
          | |- context [match ?x with _ => _ end] => destruct x
          end);
  simpl.

(** Starting and stopping a recording leave the scheduled objects and their
    list alone. *)
Lemma start_recording_frame env now path url a p :
  objects (fst (start_recording env now path url a p)) = objects p
  ∧ _scheduled_recordings (fst (start_recording env now path url a p))
    = _scheduled_recordings p.
Proof.
  unfold start_recording, _init_player, _start_recording_sync,
    VLCPlayer_start_recording.
  break_branches; auto.
Qed.

Lemma stop_recording_frame p :
  objects (fst (stop_recording p)) = objects p
  ∧ _scheduled_recordings (fst (stop_recording p)) = _scheduled_recordings p.
Proof.
  unfold stop_recording, VLCPlayer_stop_recording. break_branches; auto.
Qed.

(** A turn of the loop changes at most the [active] flag of its own object. *)
Lemma visit_frame env now p l :
  _scheduled_recordings (fst (visit env now p l)) = _scheduled_recordings p
  ∧ (objects (fst (visit env now p l)) = objects p
     ∨ objects (fst (visit env now p l)) = alter deactivate l (objects p)).
Proof.
  unfold visit.
  destruct (start_recording_frame env now
              (default "" (output_path <$> objects p !! l))
              (station_url <$> objects p !! l) true p) as [Ho Hs].
  destruct (stop_recording_frame p) as [Ho' Hs'].
  destruct (objects p !! l) as [r|]; simpl in *; [|auto].
  destruct (active r); simpl; [|auto].
  case_bool_decide; [destruct (is_recording p); simpl; auto|].
  case_bool_decide; [|auto].
  destruct (is_recording p && _); simpl; rewrite ?Ho', ?Hs'; auto.
Qed.

Lemma visit_all_scheduled env now ls : ∀ p,
  _scheduled_recordings (fst (visit_all env now ls p)) = _scheduled_recordings p.
Proof.
  induction ls as [|l ls IH]; intros p; simpl; [reflexivity|].
  pose proof (visit_frame env now p l) as [Hs _].
  destruct (visit env now p l) as [p1 c1]; simpl in *.
  specialize (IH p1). destruct (visit_all env now ls p1); simpl in *. congruence.
Qed.

Lemma visit_all_other env now ls : ∀ p l,
  l ∉ ls → objects (fst (visit_all env now ls p)) !! l = objects p !! l.
Proof.
  induction ls as [|a ls IH]; intros p l Hl; simpl; [reflexivity|].
  apply not_elem_of_cons in Hl as [Hne Hl].
  pose proof (visit_frame env now p a) as [_ Ho].
  destruct (visit env now p a) as [p1 c1]; simpl in *.
  specialize (IH p1 l Hl). destruct (visit_all env now ls p1); simpl in *.
  rewrite IH. destruct Ho as [-> | ->]; [reflexivity|].
  by rewrite lookup_alter_ne.
Qed.

(** No turn makes an inactive object active again. *)
Lemma visit_all_inactive env now ls : ∀ p l,
  is_active p l = false → is_active (fst (visit_all env now ls p)) l = false.
Proof.
  induction ls as [|a ls IH]; intros p l Hl; simpl; [exact Hl|].
  pose proof (visit_frame env now p a) as [_ Ho].
  destruct (visit env now p a) as [p1 c1]; simpl in *.
  assert (Hl1 : is_active p1 l = false).
  { unfold is_active in *. destruct Ho as [-> | ->]; [exact Hl|].
    rewrite lookup_alter. case_decide; [subst|exact Hl].
    destruct (objects p !! l); reflexivity. }
  specialize (IH p1 l Hl1). destruct (visit_all env now ls p1); exact IH.
Qed.

Lemma visit_all_app env now pre l post p :
  visit_all env now (pre ++ l :: post) p
  = let pm := fst (visit_all env now pre p) in
    let pv := fst (visit env now pm l) in
    (fst (visit_all env now post pv),
     snd (visit_all env now pre p)
     ++ snd (visit env now pm l) ++ snd (visit_all env now post pv)).
Proof.
  revert p. induction pre as [|a pre IH]; intros p; simpl.
  - destruct (visit env now p l) as [p1 c1]; simpl.
    destruct (visit_all env now post p1); reflexivity.
  - destruct (visit env now p a) as [p1 c1]; simpl. rewrite IH; simpl.
    destruct (visit_all env now pre p1) as [pm cm]; simpl.
    by rewrite <- app_assoc.
Qed.

Lemma wf_visit_all env now ls p : wf p → wf (fst (visit_all env now ls p)).
Proof.
  intros [Hnd Hall]. split.
  - by rewrite visit_all_scheduled.
  - rewrite visit_all_scheduled. rewrite Forall_forall in *. intros x Hx.
    destruct (Hall x Hx) as [r Hr].
    clear Hnd Hall Hx. revert p r Hr.
    induction ls as [|a ls IH]; intros p r Hr; simpl; [eauto|].
    pose proof (visit_frame env now p a) as [_ Ho].
    destruct (visit env now p a) as [p1 c1]; simpl in *.
    assert (H1 : is_Some (objects p1 !! x)).
    { destruct Ho as [-> | ->]; [eauto|]. rewrite lookup_alter.
      case_decide; [subst; rewrite Hr|]; eauto. }
    destruct H1 as [r1 Hr1]. specialize (IH p1 r1 Hr1).
    destruct (visit_all env now ls p1); exact IH.
Qed.

Lemma wf_scheduler_poll env now p : wf p → wf (fst (_scheduler_poll env now p)).
Proof.
  intros Hwf. unfold _scheduler_poll.
  pose proof (wf_visit_all env now (_scheduled_recordings p) p Hwf) as [Hnd Hall].
  destruct (visit_all env now (_scheduled_recordings p) p) as [p1 c]; simpl in *.
  split; simpl.
  - by apply NoDup_filter.
  - rewrite Forall_forall in *. intros x Hx%list_elem_of_filter. apply Hall. tauto.
Qed.

(** C1, as the code has it: take a poll at time [now] over a player whose
    list holds each scheduled object once, and an active recording [r] in
    that list; [pm] is the player when the loop reaches [r]. The calls of
    the poll are those made before [r]'s turn, in it and after it. If
    [start_time <= now < end_time], the turn calls
    [start_recording(output_path, station_url)] when [pm] is not recording
    and makes no call when it is. If [now >= end_time], the turn calls
    [stop_recording] when [pm] is recording and its [recording_file] is
    [r]'s [output_path], makes no call otherwise, and [r] is inactive and
    no longer listed after the poll. Every recording listed after the poll
    is active. *)
Theorem scheduler_poll_spec env now p pre l post r :
  wf p →
  _scheduled_recordings p = pre ++ l :: post →
  objects p !! l = Some r →
  active r = true →
  let pm := fst (visit_all env now pre p) in
  let turn := visit env now pm l in
  let p' := fst (_scheduler_poll env now p) in
  snd (_scheduler_poll env now p)
  = snd (visit_all env now pre p) ++ snd turn
    ++ snd (visit_all env now post (fst turn))
  ∧ (start_time r <= now < end_time r →
       snd turn = if is_recording pm then []
                  else [CallStartRecording (output_path r) (station_url r)])
  ∧ (now >= end_time r →
       snd turn = (if is_recording pm
                      && bool_decide (recording_file pm = output_path r)
                   then [CallStopRecording] else [])
       ∧ is_active p' l = false
       ∧ l ∉ _scheduled_recordings p')
  ∧ (∀ l', l' ∈ _scheduled_recordings p' → is_active p' l' = true).
Proof.
  intros [Hnd Hall] Hlist Hr Hact pm turn p'.
  assert (Hpre : (l ∉ pre) ∧ (l ∉ post)).
  { rewrite Hlist in Hnd. apply NoDup_app in Hnd as (_ & Hpre & Hnd).
    apply NoDup_cons in Hnd as [Hpost _]. split; [|exact Hpost].
    intros Hin. apply (Hpre l Hin). left. }
  destruct Hpre as [Hpre Hpost].
  assert (Hm : objects pm !! l = Some r).
  { subst pm. by rewrite visit_all_other. }
  assert (Hpoll : _scheduler_poll env now p
                  = (with_scheduled
                       (filter (λ x, is_active (fst (visit_all env now post (fst turn))) x = true)
                          (_scheduled_recordings p))
                       (fst (visit_all env now post (fst turn))),
                     snd (visit_all env now pre p) ++ snd turn
                     ++ snd (visit_all env now post (fst turn)))).
  { unfold _scheduler_poll. rewrite Hlist at 1. rewrite visit_all_app.
    cbv zeta. fold pm. fold turn. simpl.
    rewrite visit_all_scheduled. subst turn.
    rewrite (proj1 (visit_frame env now pm l)). subst pm.
    by rewrite visit_all_scheduled. }
  split; [by rewrite Hpoll|]. split; [|split].
  - intros Hwin. subst turn. unfold visit. rewrite Hm, Hact. simpl.
    rewrite bool_decide_eq_true_2 by done. by destruct (is_recording pm).
  - intros Hend. subst turn. unfold visit. rewrite Hm, Hact. simpl.
    rewrite bool_decide_eq_false_2 by lia.
    rewrite bool_decide_eq_true_2 by done.
    assert (Hoff : is_active p' l = false).
    { subst p'. rewrite Hpoll. simpl. apply visit_all_inactive.
      unfold visit. rewrite Hm, Hact. simpl.
      rewrite bool_decide_eq_false_2 by lia.
      rewrite bool_decide_eq_true_2 by done.
      unfold is_active.
      destruct (is_recording pm && _); simpl; rewrite lookup_alter_eq;
        try rewrite (proj1 (stop_recording_frame pm)); rewrite Hm; reflexivity. }
    split; [by destruct (is_recording pm && _)|]. split; [exact Hoff|].
    subst p'. rewrite Hpoll in *. simpl in *.
    intros Hin%list_elem_of_filter. destruct Hin as [Hin _].
    unfold is_active in Hin, Hoff. simpl in Hoff. congruence.
  - intros l'. subst p'. rewrite Hpoll. simpl.
    intros Hin%list_elem_of_filter. tauto.
Qed.

(** A player with two scheduled recordings: one from 1 to 2, one from 3 to 9. *)
Definition demo_env : Env := mkEnv true true (λ _ _, true).

Definition demo_player : AudioPlayer :=
  fst (schedule_recording 0 "http://t" "T" 3 9 "b.mp3"
         (fst (schedule_recording 0 "http://s" "S" 1 2 "a.mp3" AudioPlayer_init))).

Lemma demo_player_wf : wf demo_player.
Proof. apply wf_schedule_recording, wf_schedule_recording, wf_init. Qed.

(** Scheduling on the new player, at time 0, a recording from 1 to 2. *)
Lemma schedule_recording_spec_witness :
  let new := mkScheduledRecording "http://s" "S" 1 2 "a.mp3" true in
  let p' := fst (schedule_recording 0 "http://s" "S" 1 2 "a.mp3" AudioPlayer_init) in
  ∃ l, objects AudioPlayer_init !! l = None
       ∧ objects p' = <[l := new]> (objects AudioPlayer_init)
       ∧ _scheduled_recordings p' = _scheduled_recordings AudioPlayer_init ++ [l]
       ∧ (wf AudioPlayer_init →
            deref p' (_scheduled_recordings p')
            = deref AudioPlayer_init (_scheduled_recordings AudioPlayer_init) ++ [new]
            ∧ deref p' (scheduled_recordings p')
              = deref AudioPlayer_init (scheduled_recordings AudioPlayer_init) ++ [new]).
Proof.
  exact (proj1 (proj2 (schedule_recording_spec 0 "http://s" "S" 1 2 "a.mp3"
                         AudioPlayer_init)) eq_refl).
Defined.

(** Cancelling the second of the two. *)
Lemma cancel_scheduled_recording_spec_witness :
  let p' := fst (cancel_scheduled_recording 1 demo_player) in
  let ok := snd (cancel_scheduled_recording 1 demo_player) in
  (ok = true ↔ 0 <= 1 < Z.of_nat (length (scheduled_recordings demo_player)))
  ∧ (ok = true →
       ∃ l r, scheduled_recordings demo_player !! Z.to_nat 1 = Some l
              ∧ objects demo_player !! l = Some r ∧ active r = true
              ∧ objects p' !! l = Some (deactivate r)
              ∧ (∀ l', l' ≠ l → objects p' !! l' = objects demo_player !! l')
              ∧ _scheduled_recordings p' = _scheduled_recordings demo_player
              ∧ scheduled_recordings p'
                = delete (Z.to_nat 1) (scheduled_recordings demo_player)
              ∧ length (scheduled_recordings demo_player)
                = S (length (scheduled_recordings p')))
  ∧ (ok = false → p' = demo_player).
Proof. exact (cancel_scheduled_recording_spec 1 demo_player demo_player_wf). Defined.

Example demo_cancel :
  snd (cancel_scheduled_recording 1 demo_player) = true
  ∧ scheduled_recordings (fst (cancel_scheduled_recording 1 demo_player)) = [0%nat]
  ∧ _scheduled_recordings (fst (cancel_scheduled_recording 1 demo_player))
    = [0%nat; 1%nat]
  ∧ snd (cancel_scheduled_recording 2 demo_player) = false
  ∧ snd (cancel_scheduled_recording (-1) demo_player) = false.
Proof. vm_compute. auto. Qed.

(** At time 5 the first recording is over and the second is due. *)
Lemma scheduler_poll_spec_witness :
  let r := mkScheduledRecording "http://t" "T" 3 9 "b.mp3" true in
  let pm := fst (visit_all demo_env 5 [0%nat] demo_player) in
  let turn := visit demo_env 5 pm 1%nat in
  let p' := fst (_scheduler_poll demo_env 5 demo_player) in
  snd (_scheduler_poll demo_env 5 demo_player)
  = snd (visit_all demo_env 5 [0%nat] demo_player) ++ snd turn
    ++ snd (visit_all demo_env 5 [] (fst turn))
  ∧ (start_time r <= 5 < end_time r →
       snd turn = if is_recording pm then []
                  else [CallStartRecording (output_path r) (station_url r)])
  ∧ (5 >= end_time r →
       snd turn = (if is_recording pm
                      && bool_decide (recording_file pm = output_path r)
                   then [CallStopRecording] else [])
       ∧ is_active p' 1%nat = false
       ∧ 1%nat ∉ _scheduled_recordings p')
  ∧ (∀ l', l' ∈ _scheduled_recordings p' → is_active p' l' = true).
Proof.
  apply (scheduler_poll_spec demo_env 5 demo_player [0%nat] 1%nat []
           (mkScheduledRecording "http://t" "T" 3 9 "b.mp3" true)
           demo_player_wf);
    vm_compute; reflexivity.
Defined.

Example demo_poll_calls :
  snd (_scheduler_poll demo_env 5 demo_player)
  = [CallStartRecording "b.mp3" "http://t"]
  ∧ _scheduled_recordings (fst (_scheduler_poll demo_env 5 demo_player))
    = [1%nat].
Proof. vm_compute. split; reflexivity. Qed.

(** C1 as written fails where it drops the test of [is_recording]: a new
    player has no backend, so its [recording_file] is the empty string; a
    recording scheduled with an empty output path and over at time 5 has
    that very [output_path], and the poll makes no call at all. *)
Lemma scheduler_poll_stop_needs_recording :
  let p := fst (schedule_recording 0 "http://s" "S" 1 2 "" AudioPlayer_init) in
  let r := mkScheduledRecording "http://s" "S" 1 2 "" true in
  _scheduled_recordings p = [0%nat]
  ∧ objects p !! 0%nat = Some r
  ∧ active r = true
  ∧ 5 >= end_time r
  ∧ recording_file p = output_path r
  ∧ is_recording p = false
  ∧ snd (_scheduler_poll demo_env 5 p) = [].
Proof. vm_compute. repeat split; intros [=]. Qed.

(** *** The scheduler loop *)

Lemma scheduler_loop_exits env w : ∀ k fuel i p,
  (∀ j, (j < k)%nat → _scheduler_running (state_after env w i j p) = true) →
  _scheduler_running (state_after env w i k p) = false →
  (k < fuel)%nat →
  _scheduler_loop env w fuel i p
  = Some (state_after env w i k p, events_after env w i k p).
Proof.
  induction k as [|k IH]; intros fuel i p Hset Hclear Hfuel;
    (destruct fuel as [|fuel]; [lia|]); simpl in *.
  - by rewrite Hclear.
  - pose proof (Hset 0%nat ltac:(lia)) as H0. simpl in H0. rewrite H0.
    destruct (_scheduler_poll env (clock w i) p) as [p1 calls] eqn:Hpoll.
    simpl in *. rewrite (IH fuel (S i) (during_sleep w i p1)); [done| |done|lia].
    intros j Hj. specialize (Hset (S j)). simpl in Hset. rewrite Hpoll in Hset.
    apply Hset. lia.
Qed.

Lemma scheduler_loop_goes_on env w : ∀ fuel i p,
  (∀ j, (j < fuel)%nat → _scheduler_running (state_after env w i j p) = true) →
  _scheduler_loop env w fuel i p = None.
Proof.
  induction fuel as [|fuel IH]; intros i p Hset; simpl; [done|].
  pose proof (Hset 0%nat ltac:(lia)) as H0. simpl in H0. rewrite H0.
  destruct (_scheduler_poll env (clock w i) p) as [p1 calls] eqn:Hpoll.
  rewrite IH; [done|]. intros j Hj. specialize (Hset (S j)). simpl in Hset.
  rewrite Hpoll in Hset. apply Hset. lia.
Qed.

Lemma state_after_S env w : ∀ k i p,
  state_after env w i (S k) p
  = during_sleep w (i + k)
      (fst (_scheduler_poll env (clock w (i + k)%nat) (state_after env w i k p))).
Proof.
  induction k as [|k IH]; intros i p.
  - simpl. by rewrite Nat.add_0_r.
  - change (state_after env w i (S (S k)) p)
      with (state_after env w (S i) (S k)
              (during_sleep w i (fst (_scheduler_poll env (clock w i) p)))).
    rewrite IH. simpl. by rewrite Nat.add_succ_r.
Qed.

Lemma events_after_S env w : ∀ k i p,
  events_after env w i (S k) p
  = events_after env w i k p
    ++ [EvPoll (clock w (i + k)%nat)
          (snd (_scheduler_poll env (clock w (i + k)%nat)
                  (state_after env w i k p)));
        EvSleep 10].
Proof.
  induction k as [|k IH]; intros i p.
  - simpl. by rewrite Nat.add_0_r.
  - change (events_after env w i (S (S k)) p)
      with (EvPoll (clock w i) (snd (_scheduler_poll env (clock w i) p))
            :: EvSleep 10
            :: events_after env w (S i) (S k)
                 (during_sleep w i (fst (_scheduler_poll env (clock w i) p)))).
    rewrite IH. simpl. by rewrite Nat.add_succ_r.
Qed.

(** C2: [_start_scheduler] sets the flag (and does nothing when it is set).
    The scheduler thread tests the flag, and while it finds it set it makes
    one poll over the scheduled recordings and then calls [time.sleep(10)]
    before it tests the flag again: if the flag is set at the first [k]
    tests and cleared at the next one, the loop returns there, having made
    exactly [k] polls, each followed by one sleep of 10 seconds, the [j]-th
    poll on the player as the [j]-th test found it; as long as every test
    finds the flag set, the loop goes on. *)
Theorem scheduler_loop_spec env w p :
  (_scheduler_running (_start_scheduler p) = true
   ∧ (_scheduler_running p = true → _start_scheduler p = p)
   ∧ _scheduler_running (_stop_scheduler p) = false)
  ∧ (∀ k fuel,
       (∀ j, (j < k)%nat → _scheduler_running (state_after env w 0 j p) = true) →
       _scheduler_running (state_after env w 0 k p) = false →
       (k < fuel)%nat →
       _scheduler_loop env w fuel 0 p
       = Some (state_after env w 0 k p, events_after env w 0 k p))
  ∧ (∀ fuel,
       (∀ j, (j < fuel)%nat → _scheduler_running (state_after env w 0 j p) = true) →
       _scheduler_loop env w fuel 0 p = None)
  ∧ (∀ k, events_after env w 0 k p
          = flat_map
              (λ j, [EvPoll (clock w j)
                       (snd (_scheduler_poll env (clock w j)
                               (state_after env w 0 j p)));
                     EvSleep 10])
              (seq 0 k))
  ∧ (∀ k, state_after env w 0 (S k) p
          = during_sleep w k
              (fst (_scheduler_poll env (clock w k) (state_after env w 0 k p)))).
Proof.
  split; [|split; [|split; [|split]]].
  - unfold _start_scheduler, _stop_scheduler.
    destruct (_scheduler_running p) eqn:Hrun; simpl; rewrite ?Hrun;
      repeat split; auto; discriminate.
  - intros k fuel. apply scheduler_loop_exits.
  - intros fuel. apply scheduler_loop_goes_on.
  - induction k as [|k IH]; [reflexivity|].
    rewrite events_after_S, seq_S, flat_map_app, IH. simpl. reflexivity.
  - intros k. apply (state_after_S env w k 0%nat p).
Qed.

(** A world in which another thread calls [_stop_scheduler] during the
    third sleep: the loop makes three polls, ten seconds apart, and ends. *)
Definition demo_world : World :=
  mkWorld (λ i, 5 + 10 * Z.of_nat i)
          (λ i p, if bool_decide (i = 2%nat) then _stop_scheduler p else p).

Lemma scheduler_loop_spec_witness :
  _scheduler_loop demo_env demo_world 10 0 demo_player
  = Some (state_after demo_env demo_world 0 3 demo_player,
          events_after demo_env demo_world 0 3 demo_player).
Proof.
  apply (proj1 (proj2 (scheduler_loop_spec demo_env demo_world demo_player))
           3%nat 10%nat).
  - intros j Hj. destruct j as [|[|[|j]]]; [vm_compute; reflexivity..|lia].
  - vm_compute. reflexivity.
  - lia.
Defined.

Example demo_scheduler_loop :
  snd <$> _scheduler_loop demo_env demo_world 10 0 demo_player
  = Some [EvPoll 5 [CallStartRecording "b.mp3" "http://t"]; EvSleep 10;
          EvPoll 15 []; EvSleep 10;
          EvPoll 25 []; EvSleep 10].
Proof. vm_compute. reflexivity. Qed.

(** *** Recording by hand *)


Definition recording_env : Env := mkEnv true true (λ _ _, true).


(** The url [start_recording] would record: the one given, or the current
    one when none or an empty one is given. *)
Definition record_url_of (url : option string) (p : AudioPlayer) : string :=
  match url with
  | Some u => if bool_decide (u = "") then _current_url p else u
  | None => _current_url p
  end.

(** X2: [start_recording] returns [False], starts no thread and leaves the
    recording state alone when the VLC bindings are missing, when no
    backend exists and none can be created, or when there is no url to
    record; whenever it returns [False] in asynchronous mode, nothing but
    the backend can have changed. *)
Theorem start_recording_refused env now output_path url async_record p :
  let r := start_recording env now output_path url async_record p in
  (VLC_AVAILABLE env = false
   ∨ (_player p = None ∧ vlc_starts env = false)
   ∨ record_url_of url p = "" →
   snd r = false)
  ∧ (snd r = false →
     spawned (fst r) = spawned p
     ∧ objects (fst r) = objects p
     ∧ _scheduled_recordings (fst r) = _scheduled_recordings p
     ∧ _volume (fst r) = _volume p
     ∧ (async_record = true →
        _recording_state (fst r) = _recording_state p
        ∧ _recording_start_time (fst r) = _recording_start_time p)).
Proof.
  unfold start_recording, _init_player, _start_recording_sync,
    VLCPlayer_start_recording, record_url_of.
  split.
  - intros [Hno | [[Hnone Hstart] | Hurl]].
    + by rewrite Hno.
    + rewrite Hnone, Hstart. by destruct (VLC_AVAILABLE env).
    + destruct (VLC_AVAILABLE env); simpl; [|done].
      destruct (_player p) as [b|]; simpl.
      * by rewrite Hurl.
      * destruct (vlc_starts env); simpl; [|done]. by rewrite Hurl.
  - destruct (VLC_AVAILABLE env); simpl; [|done].
    destruct (_player p) as [b|] eqn:Hb; simpl.
    + case_bool_decide; simpl; [done|].
      destruct async_record; simpl; [discriminate|]. rewrite Hb.
      destruct (_recording b); simpl; [done|].
      destruct (vlc_records env _ output_path); simpl; [discriminate|].
      intros _. repeat split; discriminate.
    + destruct (vlc_starts env); simpl; [|done].
      case_bool_decide; simpl; [done|].
      destruct async_record; simpl; [discriminate|].
      destruct (vlc_records env _ output_path); simpl; [discriminate|].
      intros _. repeat split; discriminate.
Qed.

(** X3: A second recording is refused while one is running: the synchronous
    call returns [False] and the player is as before; the asynchronous call
    returns [True], but the thread it starts leaves the running recording
    and its file alone. *)
Theorem start_recording_while_recording env now output_path url p b :
  VLC_AVAILABLE env = true →
  _player p = Some b →
  _recording b = true →
  record_url_of url p ≠ "" →
  start_recording env now output_path url false p = (p, false)
  ∧ snd (start_recording env now output_path url true p) = true
  ∧ (let p1 := fst (start_recording env now output_path url true p) in
     let p2 := _start_recording_async env (record_url_of url p) output_path p1 in
     spawned p1 = spawned p ++ [RecorderThread (record_url_of url p) output_path]
     ∧ _player p2 = Some b
     ∧ is_recording p2 = true
     ∧ recording_file p2 = recording_file p).
Proof.
  intros Hvlc Hb Hrec Hurl.
  unfold start_recording, _init_player, _start_recording_sync,
    _start_recording_async, VLCPlayer_start_recording, record_url_of in *.
  rewrite Hvlc, Hb. simpl. rewrite bool_decide_eq_false_2 by done.
  simpl. rewrite Hb, Hrec. simpl.
  unfold is_recording, recording_file; simpl. rewrite Hb, Hrec.
  split; [|by repeat split].
  f_equal. destruct p; simpl in *. by rewrite Hb.
Qed.

Lemma start_recording_while_recording_witness :
  let p :=
    fst (start_recording recording_env 7 "a.mp3" (Some "http://s") false
           AudioPlayer_init) in
  start_recording recording_env 8 "b.mp3" (Some "http://t") false p = (p, false)
  ∧ snd (start_recording recording_env 8 "b.mp3" (Some "http://t") true p) = true
  ∧ (let p1 := fst (start_recording recording_env 8 "b.mp3" (Some "http://t") true p) in
     let p2 :=
       _start_recording_async recording_env
         (record_url_of (Some "http://t") p) "b.mp3" p1 in
     spawned p1
     = spawned p ++ [RecorderThread (record_url_of (Some "http://t") p) "b.mp3"]
     ∧ _player p2 = Some (mkVLCPlayer 50 false true "a.mp3")
     ∧ is_recording p2 = true
     ∧ recording_file p2 = recording_file p).
Proof.
  apply (start_recording_while_recording recording_env 8 "b.mp3"
           (Some "http://t") _ (mkVLCPlayer 50 false true "a.mp3"));
    [reflexivity | reflexivity | reflexivity | discriminate].
Defined.

(** *** What a poll keeps *)

(** The recordings a poll at time [now] keeps: those that are active and
    not yet over. *)
Definition still_due (now : Z) (p : AudioPlayer) (l : nat) : bool :=
  match objects p !! l with
  | Some r => active r && bool_decide (now < end_time r)
  | None => false
  end.

(** The object of a turn after the turn: made inactive when it was active
    and over, untouched otherwise. *)
Lemma visit_own_object env now p l :
  objects (fst (visit env now p l)) !! l
  = (λ r, if active r && bool_decide (now >= end_time r) then deactivate r else r)
      <$> objects p !! l.
Proof.
  unfold visit.
  destruct (start_recording_frame env now
              (default "" (output_path <$> objects p !! l))
              (station_url <$> objects p !! l) true p) as [Ho _].
  destruct (stop_recording_frame p) as [Ho' _].
  destruct (objects p !! l) as [r|] eqn:Hr; simpl in *; [|by rewrite Hr].
  destruct (active r) eqn:Hact; simpl; [|by rewrite Hr].
  case_bool_decide as Hwin.
  - rewrite bool_decide_eq_false_2 by lia.
    destruct (is_recording p); simpl; [|rewrite Ho]; by rewrite Hr.
  - case_bool_decide as Hend; simpl; [|by rewrite Hr].
    destruct (is_recording p && _); simpl; rewrite lookup_alter_eq;
      try rewrite Ho'; by rewrite Hr.
Qed.

Lemma visit_other_object env now p l l' :
  l ≠ l' → objects (fst (visit env now p l)) !! l' = objects p !! l'.
Proof.
  intros Hne. destruct (visit_frame env now p l) as [_ [-> | ->]]; [done|].
  by rewrite lookup_alter_ne.
Qed.

Lemma visit_all_object env now ls : ∀ p l,
  NoDup ls → l ∈ ls →
  objects (fst (visit_all env now ls p)) !! l
  = (λ r, if active r && bool_decide (now >= end_time r) then deactivate r else r)
      <$> objects p !! l.
Proof.
  induction ls as [|a ls IH]; intros p l Hnd Hl; [by apply elem_of_nil in Hl|].
  apply NoDup_cons in Hnd as [Ha Hnd]. simpl.
  pose proof (visit_own_object env now p a) as Hown.
  pose proof (visit_other_object env now p a) as Hother.
  destruct (visit env now p a) as [p1 c1]; simpl in *.
  pose proof (visit_all_other env now ls p1 a Ha) as Hlater.
  specialize (IH p1). destruct (visit_all env now ls p1) as [p2 c2]; simpl in *.
  apply elem_of_cons in Hl as [-> | Hl].
  - by rewrite Hlater, Hown.
  - rewrite (IH l Hnd Hl), Hother; [done|]. intros ->. done.
Qed.

Lemma scheduler_poll_objects env now p :
  objects (fst (_scheduler_poll env now p))
  = objects (fst (visit_all env now (_scheduled_recordings p) p))
  ∧ _scheduled_recordings (fst (_scheduler_poll env now p))
    = filter (λ l, is_active (fst (visit_all env now (_scheduled_recordings p) p)) l
                   = true)
        (_scheduled_recordings p).
Proof.
  unfold _scheduler_poll.
  pose proof (visit_all_scheduled env now (_scheduled_recordings p) p) as Hs.
  destruct (visit_all env now (_scheduled_recordings p) p) as [p1 c]; simpl in *.
  by rewrite Hs.
Qed.

Lemma scheduler_poll_kept env now p :
  wf p →
  _scheduled_recordings (fst (_scheduler_poll env now p))
  = filter (λ l, still_due now p l = true) (_scheduled_recordings p)
  ∧ ∀ l, still_due now p l = true →
         objects (fst (_scheduler_poll env now p)) !! l = objects p !! l.
Proof.
  intros [Hnd Hall]. destruct (scheduler_poll_objects env now p) as [Ho Hs].
  assert (Hobj : ∀ l, l ∈ _scheduled_recordings p →
            objects (fst (_scheduler_poll env now p)) !! l
            = (λ r, if active r && bool_decide (now >= end_time r)
                    then deactivate r else r) <$> objects p !! l).
  { intros l Hl. rewrite Ho. by apply visit_all_object. }
  split.
  - rewrite Hs. apply filter_ext_elem. intros l Hl.
    unfold is_active, still_due. rewrite <- Ho, (Hobj l Hl).
    destruct (objects p !! l) as [r|]; simpl; [|done].
    destruct (active r) eqn:Hact; simpl.
    + case_bool_decide; case_bool_decide; simpl; try lia; done.
    + by rewrite Hact.
  - intros l Hdue. unfold still_due in Hdue.
    destruct (objects p !! l) as [r|] eqn:Hr; [|done].
    apply andb_prop in Hdue as [Hact Hend]. apply bool_decide_eq_true in Hend.
    destruct (decide (l ∈ _scheduled_recordings p)) as [Hl|Hl].
    + rewrite (Hobj l Hl), Hr. simpl. rewrite Hact.
      by rewrite bool_decide_eq_false_2 by lia.
    + rewrite Ho, visit_all_other by done. done.
Qed.

(** X4: A poll at time [now] keeps in the list exactly the recordings that are
    active and whose end time is still ahead, in their order, and leaves
    their objects as they were: it never adds a recording, and it drops
    none before its end time unless it was cancelled. *)
Theorem scheduler_poll_keeps_pending env now p :
  wf p →
  let p' := fst (_scheduler_poll env now p) in
  _scheduled_recordings p'
  = filter (λ l, still_due now p l = true) (_scheduled_recordings p)
  ∧ scheduled_recordings p' = _scheduled_recordings p'
  ∧ (∀ l r, l ∈ _scheduled_recordings p → objects p !! l = Some r →
       active r = true → now < end_time r →
       l ∈ _scheduled_recordings p' ∧ objects p' !! l = Some r)
  ∧ (∀ l, l ∈ _scheduled_recordings p' → l ∈ _scheduled_recordings p).
Proof.
  intros Hwf p'. destruct (scheduler_poll_kept env now p Hwf) as [Hlist Hobj].
  split; [exact Hlist|]. split; [|split].
  - unfold scheduled_recordings. subst p'. rewrite Hlist.
    rewrite list_filter_filter. apply filter_ext_elem. intros l Hl.
    split; [tauto|]. intros Hdue. split; [|done].
    unfold is_active. rewrite (Hobj l Hdue).
    unfold still_due in Hdue. destruct (objects p !! l); [|done].
    by apply andb_prop in Hdue as [? _].
  - intros l r Hl Hr Hact Hend.
    assert (Hdue : still_due now p l = true).
    { unfold still_due. rewrite Hr, Hact. by rewrite bool_decide_eq_true_2. }
    subst p'. rewrite Hlist, (Hobj l Hdue). split; [|done].
    apply list_elem_of_filter. done.
  - intros l. subst p'. rewrite Hlist. intros Hl%list_elem_of_filter. tauto.
Qed.

Lemma scheduler_poll_keeps_pending_witness :
  let p' := fst (_scheduler_poll demo_env 5 demo_player) in
  _scheduled_recordings p'
  = filter (λ l, still_due 5 demo_player l = true)
      (_scheduled_recordings demo_player)
  ∧ scheduled_recordings p' = _scheduled_recordings p'
  ∧ (∀ l r, l ∈ _scheduled_recordings demo_player →
       objects demo_player !! l = Some r →
       active r = true → 5 < end_time r →
       l ∈ _scheduled_recordings p' ∧ objects p' !! l = Some r)
  ∧ (∀ l, l ∈ _scheduled_recordings p' → l ∈ _scheduled_recordings demo_player).
Proof. exact (scheduler_poll_keeps_pending demo_env 5 demo_player demo_player_wf). Defined.

(** X5: A second poll at the same time, with no other thread in between,
    removes nothing more and changes no scheduled object. *)
Theorem scheduler_poll_again env now p :
  wf p →
  let p1 := fst (_scheduler_poll env now p) in
  let p2 := fst (_scheduler_poll env now p1) in
  _scheduled_recordings p2 = _scheduled_recordings p1
  ∧ ∀ l, l ∈ _scheduled_recordings p1 → objects p2 !! l = objects p1 !! l.
Proof.
  intros Hwf p1 p2.
  destruct (scheduler_poll_kept env now p Hwf) as [Hlist Hobj].
  pose proof (wf_scheduler_poll env now p Hwf) as Hwf1.
  destruct (scheduler_poll_kept env now p1 Hwf1) as [Hlist1 Hobj1].
  assert (Hdue : ∀ l, l ∈ _scheduled_recordings p1 → still_due now p1 l = true).
  { intros l Hl. subst p1. rewrite Hlist in Hl.
    apply list_elem_of_filter in Hl as [Hdue _].
    unfold still_due in *. by rewrite (Hobj l Hdue). }
  split.
  - subst p2. rewrite Hlist1.
    rewrite (filter_ext_elem _ (λ _, True)).
    + clear. induction (_scheduled_recordings p1) as [|a ls IH]; [done|].
      by rewrite filter_cons_True, IH.
    + intros l Hl. split; [done|]. intros _. by apply Hdue.
  - intros l Hl. apply Hobj1. by apply Hdue.
Qed.

Lemma scheduler_poll_again_witness :
  let p1 := fst (_scheduler_poll demo_env 5 demo_player) in
  let p2 := fst (_scheduler_poll demo_env 5 p1) in
  _scheduled_recordings p2 = _scheduled_recordings p1
  ∧ ∀ l, l ∈ _scheduled_recordings p1 → objects p2 !! l = objects p1 !! l.
Proof. exact (scheduler_poll_again demo_env 5 demo_player demo_player_wf). Defined.

(** *** Scheduling and cancelling together *)

Lemma schedule_recording_scheduled now url name st en path p :
  wf p →
  snd (schedule_recording now url name st en path p) = true →
  let l := fresh (dom (objects p)) in
  let new := mkScheduledRecording url name st en path true in
  fst (schedule_recording now url name st en path p)
  = with_scheduled (_scheduled_recordings p ++ [l])
      (with_objects (<[l := new]> (objects p)) p)
  ∧ (l ∉ _scheduled_recordings p)
  ∧ scheduled_recordings (fst (schedule_recording now url name st en path p))
    = scheduled_recordings p ++ [l].
Proof.
  intros Hwf Hok l new.
  pose proof (wf_not_listed _ _ Hwf (fresh_object p)) as Hnew. fold l in Hnew.
  revert Hok. unfold schedule_recording.
  repeat case_bool_decide; simpl; try discriminate. intros _.
  fold l. fold new. split; [done|]. split; [done|].
  unfold scheduled_recordings. cbn [_scheduled_recordings with_scheduled].
  rewrite filter_app, filter_cons_True, filter_nil
    by (unfold is_active; simpl; by rewrite lookup_insert_eq).
  f_equal. apply filter_ext_elem. intros x Hx. unfold is_active; simpl.
  rewrite lookup_insert_ne; [done|]. intros ->. done.
Qed.

(** X6: Cancelling the recording that was scheduled last undoes the
    scheduling for every reader of [scheduled_recordings]: the call
    returns [True] and the property lists the same recordings as before.
    The cancelled object stays in the internal list until the next poll,
    which drops it whatever the time. *)
Theorem schedule_then_cancel env now now' url name st en path p :
  wf p →
  snd (schedule_recording now url name st en path p) = true →
  let p1 := fst (schedule_recording now url name st en path p) in
  let index := Z.of_nat (length (scheduled_recordings p)) in
  let p2 := fst (cancel_scheduled_recording index p1) in
  snd (cancel_scheduled_recording index p1) = true
  ∧ scheduled_recordings p2 = scheduled_recordings p
  ∧ deref p2 (scheduled_recordings p2) = deref p (scheduled_recordings p)
  ∧ _scheduled_recordings p2
    = _scheduled_recordings p ++ [fresh (dom (objects p))]
  ∧ fresh (dom (objects p))
    ∉ _scheduled_recordings (fst (_scheduler_poll env now' p2)).
Proof.
  intros Hwf Hok p1 index p2.
  destruct (schedule_recording_scheduled now url name st en path p Hwf Hok)
    as (Hp1 & Hnew & Hview).
  set (l := fresh (dom (objects p))) in *.
  assert (Hl : scheduled_recordings p1 !! Z.to_nat index = Some l).
  { subst p1 index. rewrite Hview, Nat2Z.id. by rewrite list_lookup_middle. }
  assert (Hcancel : cancel_scheduled_recording index p1 = (set_inactive l p1, true)).
  { unfold cancel_scheduled_recording. rewrite Hl.
    rewrite bool_decide_eq_true_2; [done|].
    subst p1 index. rewrite Hview, length_app. simpl. lia. }
  assert (Hobj : ∀ x, x ≠ l → objects (set_inactive l p1) !! x = objects p !! x).
  { intros x Hx. subst p1. rewrite Hp1. simpl.
    rewrite lookup_alter_ne by done. by rewrite lookup_insert_ne. }
  assert (Hview2 : scheduled_recordings (set_inactive l p1) = scheduled_recordings p).
  { unfold scheduled_recordings at 1.
    cbn [_scheduled_recordings set_inactive with_objects].
    subst p1. rewrite Hp1. cbn [_scheduled_recordings with_scheduled].
    rewrite filter_app, filter_cons_False, filter_nil, app_nil_r.
    - apply filter_ext_elem. intros x Hx. unfold is_active.
      rewrite <- Hp1, Hobj; [done|]. intros ->. done.
    - rewrite <- Hp1. intros Hact%is_active_set_inactive. by destruct Hact. }
  subst p2. rewrite Hcancel. simpl.
  split; [done|]. split; [exact Hview2|]. split; [|split].
  - rewrite Hview2. unfold deref. apply list_omap_ext.
    apply Forall2_same_length_lookup_2; [done|].
    intros i x y Hx Hy. rewrite Hx in Hy. injection Hy as <-.
    apply Hobj. intros ->. apply Hnew.
    apply list_elem_of_lookup_2 in Hx. apply list_elem_of_filter in Hx. tauto.
  - subst p1. by rewrite Hp1.
  - assert (Hwf2 : wf (set_inactive l p1)).
    { apply wf_set_inactive. subst p1. by apply wf_schedule_recording. }
    destruct (scheduler_poll_kept env now' _ Hwf2) as [-> _].
    intros [Hdue _]%list_elem_of_filter. revert Hdue.
    unfold still_due, set_inactive; simpl. rewrite lookup_alter_eq.
    subst p1. rewrite Hp1. simpl. by rewrite lookup_insert_eq.
Qed.

Lemma schedule_then_cancel_witness :
  let p := demo_player in
  let p1 := fst (schedule_recording 0 "http://u" "U" 20 30 "c.mp3" p) in
  let index := Z.of_nat (length (scheduled_recordings p)) in
  let p2 := fst (cancel_scheduled_recording index p1) in
  snd (cancel_scheduled_recording index p1) = true
  ∧ scheduled_recordings p2 = scheduled_recordings p
  ∧ deref p2 (scheduled_recordings p2) = deref p (scheduled_recordings p)
  ∧ _scheduled_recordings p2
    = _scheduled_recordings p ++ [fresh (dom (objects p))]
  ∧ fresh (dom (objects p))
    ∉ _scheduled_recordings (fst (_scheduler_poll demo_env 0 p2)).
Proof.
  exact (schedule_then_cancel demo_env 0 0 "http://u" "U" 20 30 "c.mp3"
           demo_player demo_player_wf eq_refl).
Defined.

(** *** Mute *)

Definition with_muted (m : bool) (p : AudioPlayer) : AudioPlayer :=
  mkAudioPlayer (_player p) (_volume p) m (_current_url p) (_recording_state p)
    (_recording_start_time p) (objects p) (_scheduled_recordings p)
    (_scheduler_running p) (spawned p).

(** [muted] setter. *)
Definition set_muted (value : bool) (p : AudioPlayer) : AudioPlayer :=
  with_player (VLCPlayer_set_mute value <$> _player p) (with_muted value p).

(** [toggle_mute]. *)
Definition toggle_mute (p : AudioPlayer) : AudioPlayer :=
  set_muted (negb (_muted p)) p.

(** *** What every reachable player satisfies *)

(** The calls that change a player, from any thread. [DoRecorderThread] is
    the body of a recorder thread, whatever its arguments. *)
Inductive PlayerOp :=
| DoVolume (op : VolumeOp)
| DoSetMuted (value : bool)
| DoToggleMute
| DoStartRecording (now : Z) (output_path : string) (url : option string)
    (async_record : bool)
| DoRecorderThread (url output_path : string)
| DoStopRecording
| DoSchedule (now : Z) (station_url station_name : string)
    (start_time end_time : Z) (output_path : string)
| DoCancel (index : Z)
| DoPoll (now : Z)
| DoStartScheduler
| DoStopScheduler.

Definition run_op (env : Env) (p : AudioPlayer) (op : PlayerOp) : AudioPlayer :=
  match op with
  | DoVolume vop => run_volume_op p vop
  | DoSetMuted value => set_muted value p
  | DoToggleMute => toggle_mute p
  | DoStartRecording now output_path url async_record =>
      fst (start_recording env now output_path url async_record p)
  | DoRecorderThread url output_path =>
      _start_recording_async env url output_path p
  | DoStopRecording => fst (stop_recording p)
  | DoSchedule now url name st en output_path =>
      fst (schedule_recording now url name st en output_path p)
  | DoCancel index => fst (cancel_scheduled_recording index p)
  | DoPoll now => fst (_scheduler_poll env now p)
  | DoStartScheduler => _start_scheduler p
  | DoStopScheduler => _stop_scheduler p
  end.

(** The player and its backend agree: the volume is in range, a backend
    that exists has the player's volume and mute state, and a player
    without a backend is not marked as recording. *)
Definition backend_ok (p : AudioPlayer) : Prop :=
  0 <= _volume p <= 100
  ∧ (∀ b, _player p = Some b →
       vlc_volume b = _volume p ∧ vlc_muted b = _muted p)
  ∧ (_player p = None → _recording_state p = IDLE).

Ltac backend_cases :=
  repeat match goal with
         | |- context [if ?b then _ else _] => destruct b; simpl
         | |- context [match ?x with _ => _ end] => destruct x eqn:?; simpl
         end;
  repeat split; simpl in *; intros;
  repeat match goal with
         | H : Some _ = Some _ |- _ => injection H as <-
         | H : Some _ = None |- _ => discriminate H
         | H : None = Some _ |- _ => discriminate H
         end;
  simpl; try done; try lia;
  try match goal with
      | H : ∀ b, Some ?x = Some b → _ |- _ =>
          destruct (H x eq_refl); simpl in *; try done; try lia
      | H : None = None → _ |- _ => by apply H
      end.

Lemma backend_ok_frame p p' :
  _player p' = _player p → _volume p' = _volume p → _muted p' = _muted p →
  _recording_state p' = _recording_state p →
  backend_ok p → backend_ok p'.
Proof. unfold backend_ok. by intros -> -> -> ->. Qed.

Lemma backend_ok_set_volume value p : backend_ok p → backend_ok (set_volume value p).
Proof.
  unfold backend_ok, set_volume. destruct p as [[b|] ? ? ? ? ? ? ? ? ?];
    simpl; intros (Hv & Hb & Hn); backend_cases.
Qed.

Lemma backend_ok_set_muted value p : backend_ok p → backend_ok (set_muted value p).
Proof.
  unfold backend_ok, set_muted. destruct p as [[b|] ? ? ? ? ? ? ? ? ?];
    simpl; intros (Hv & Hb & Hn); backend_cases.
Qed.

Lemma backend_ok_start_recording env now output_path url async_record p :
  backend_ok p →
  backend_ok (fst (start_recording env now output_path url async_record p)).
Proof.
  unfold backend_ok, start_recording, _init_player, _start_recording_sync,
    VLCPlayer_start_recording.
  destruct p as [[b|] ? ? ? ? ? ? ? ? ?]; simpl; intros (Hv & Hb & Hn);
    backend_cases.
Qed.

Lemma backend_ok_recorder_thread env url output_path p :
  backend_ok p → backend_ok (_start_recording_async env url output_path p).
Proof.
  unfold backend_ok, _start_recording_async, VLCPlayer_start_recording.
  destruct p as [[b|] ? ? ? ? ? ? ? ? ?]; simpl; intros (Hv & Hb & Hn);
    backend_cases.
Qed.

Lemma backend_ok_stop_recording p :
  backend_ok p → backend_ok (fst (stop_recording p)).
Proof.
  unfold backend_ok, stop_recording, VLCPlayer_stop_recording.
  destruct p as [[b|] ? ? ? ? ? ? ? ? ?]; simpl; intros (Hv & Hb & Hn);
    backend_cases.
Qed.

Lemma backend_ok_visit env now p l :
  backend_ok p → backend_ok (fst (visit env now p l)).
Proof.
  intros Hok. unfold visit.
  destruct (objects p !! l) as [r|]; simpl; [|done].
  destruct (active r); simpl; [|done].
  case_bool_decide.
  { destruct (is_recording p); simpl; [done|].
    by apply backend_ok_start_recording. }
  case_bool_decide; simpl; [|done].
  destruct (is_recording p && _); simpl.
  - eapply backend_ok_frame; [..|by apply backend_ok_stop_recording]; done.
  - eapply backend_ok_frame; [..|exact Hok]; done.
Qed.

Lemma backend_ok_visit_all env now ls : ∀ p,
  backend_ok p → backend_ok (fst (visit_all env now ls p)).
Proof.
  induction ls as [|l ls IH]; intros p Hok; simpl; [done|].
  pose proof (backend_ok_visit env now p l Hok) as H1.
  destruct (visit env now p l) as [p1 c1]; simpl in *.
  specialize (IH p1 H1). by destruct (visit_all env now ls p1).
Qed.

Lemma backend_ok_scheduler_poll env now p :
  backend_ok p → backend_ok (fst (_scheduler_poll env now p)).
Proof.
  intros Hok. unfold _scheduler_poll.
  pose proof (backend_ok_visit_all env now (_scheduled_recordings p) p Hok) as H1.
  destruct (visit_all env now (_scheduled_recordings p) p) as [p1 c]; simpl in *.
  eapply backend_ok_frame; [..|exact H1]; done.
Qed.

Lemma wf_frame p p' :
  objects p' = objects p → _scheduled_recordings p' = _scheduled_recordings p →
  wf p → wf p'.
Proof. unfold wf. by intros -> ->. Qed.

Lemma run_op_keeps env p op :
  wf p ∧ backend_ok p → wf (run_op env p op) ∧ backend_ok (run_op env p op).
Proof.
  intros [Hwf Hok].
  destruct op as [vop|value| |now path url a|url path| |now url name st en path
                 |index|now| |]; simpl.
  - split; [destruct vop; by eapply wf_frame; [..|exact Hwf]|].
    destruct vop; by apply backend_ok_set_volume.
  - split; [by eapply wf_frame; [..|exact Hwf] | by apply backend_ok_set_muted].
  - split; [by eapply wf_frame; [..|exact Hwf] | by apply backend_ok_set_muted].
  - split; [|by apply backend_ok_start_recording].
    destruct (start_recording_frame env now path url a p).
    by eapply wf_frame; [..|exact Hwf].
  - split; [|by apply backend_ok_recorder_thread].
    eapply wf_frame; [..|exact Hwf]; unfold _start_recording_async,
      VLCPlayer_start_recording; break_branches; done.
  - split; [|by apply backend_ok_stop_recording].
    destruct (stop_recording_frame p). by eapply wf_frame; [..|exact Hwf].
  - split; [by apply wf_schedule_recording|].
    eapply backend_ok_frame; [..|exact Hok]; unfold schedule_recording;
      repeat case_bool_decide; done.
  - split; [by apply wf_cancel_scheduled_recording|].
    eapply backend_ok_frame; [..|exact Hok]; unfold cancel_scheduled_recording;
      case_bool_decide; try done; by destruct (_ !! _).
  - split; [by apply wf_scheduler_poll | by apply backend_ok_scheduler_poll].
  - unfold _start_scheduler. destruct (_scheduler_running p); [done|].
    split; [by eapply wf_frame; [..|exact Hwf]|].
    by eapply backend_ok_frame; [..|exact Hok].
  - split; [by eapply wf_frame; [..|exact Hwf]|].
    by eapply backend_ok_frame; [..|exact Hok].
Qed.

Lemma run_ops_keep env ops : ∀ p,
  wf p ∧ backend_ok p →
  wf (foldl (run_op env) p ops) ∧ backend_ok (foldl (run_op env) p ops).
Proof.
  induction ops as [|op ops IH]; intros p Hp; simpl; [done|].
  by apply IH, run_op_keeps.
Qed.

Lemma backend_ok_init : backend_ok AudioPlayer_init.
Proof. unfold backend_ok; simpl. repeat split; try lia; done. Qed.

(** X7: Whatever calls are made on a new player, in whatever order: the list
    of scheduled recordings holds each object once and every reference in
    it points to an object; the volume is between 0 and 100; the backend,
    once it exists, has the player's volume and mute state; and the player
    reports a recording only when its backend is recording. *)
Theorem reachable_player_consistent env ops :
  let p := foldl (run_op env) AudioPlayer_init ops in
  wf p
  ∧ 0 <= _volume p <= 100
  ∧ (∀ b, _player p = Some b →
       vlc_volume b = _volume p ∧ vlc_muted b = _muted p)
  ∧ (is_recording p = true → ∃ b, _player p = Some b ∧ _recording b = true).
Proof.
  intros p.
  assert (Hinv : wf p ∧ backend_ok p).
  { subst p. apply run_ops_keep. split; [apply wf_init | apply backend_ok_init]. }
  destruct Hinv as (Hwf & Hv & Hb & Hn).
  split; [done|]. split; [done|]. split; [done|].
  unfold is_recording. destruct (_player p) as [b|]; [eauto|].
  rewrite (Hn eq_refl). by case_bool_decide.
Qed.

End Player.

(** ** events.py *)
Module Events.

Inductive EventType :=
| PLAYBACK_STARTED | PLAYBACK_STOPPED | PLAYBACK_PAUSED | PLAYBACK_RESUMED
| PLAYBACK_ERROR | BUFFERING_STARTED | BUFFERING_ENDED
| VOLUME_CHANGED | MUTE_TOGGLED
| METADATA_UPDATED
| FAVORITE_ADDED | FAVORITE_REMOVED | FAVORITE_UPDATED | FAVORITES_REORDERED
| CATEGORY_ADDED | CATEGORY_REMOVED | CATEGORY_UPDATED
| SEARCH_STARTED | SEARCH_COMPLETED | SEARCH_ERROR
| WINDOW_OPENED | WINDOW_CLOSED | TAB_CHANGED
| PLUGIN_LOADED | PLUGIN_UNLOADED | PLUGIN_ERROR
| CONFIG_CHANGED
| INTERNET_CONNECTED | INTERNET_DISCONNECTED.

#[global] Instance EventType_eq_dec : EqDecision EventType.
Proof. solve_decision. Defined.

(** The value [auto()] gives each member. *)
Definition EventType_value (t : EventType) : positive :=
  match t with
  | PLAYBACK_STARTED => 1 | PLAYBACK_STOPPED => 2 | PLAYBACK_PAUSED => 3
  | PLAYBACK_RESUMED => 4 | PLAYBACK_ERROR => 5 | BUFFERING_STARTED => 6
  | BUFFERING_ENDED => 7 | VOLUME_CHANGED => 8 | MUTE_TOGGLED => 9
  | METADATA_UPDATED => 10 | FAVORITE_ADDED => 11 | FAVORITE_REMOVED => 12
  | FAVORITE_UPDATED => 13 | FAVORITES_REORDERED => 14 | CATEGORY_ADDED => 15
  | CATEGORY_REMOVED => 16 | CATEGORY_UPDATED => 17 | SEARCH_STARTED => 18
  | SEARCH_COMPLETED => 19 | SEARCH_ERROR => 20 | WINDOW_OPENED => 21
  | WINDOW_CLOSED => 22 | TAB_CHANGED => 23 | PLUGIN_LOADED => 24
  | PLUGIN_UNLOADED => 25 | PLUGIN_ERROR => 26 | CONFIG_CHANGED => 27
  | INTERNET_CONNECTED => 28 | INTERNET_DISCONNECTED => 29
  end%positive.

Definition EventType_of_value (v : positive) : option EventType :=
  match v with
  | 1 => Some PLAYBACK_STARTED | 2 => Some PLAYBACK_STOPPED
  | 3 => Some PLAYBACK_PAUSED | 4 => Some PLAYBACK_RESUMED
  | 5 => Some PLAYBACK_ERROR | 6 => Some BUFFERING_STARTED
  | 7 => Some BUFFERING_ENDED | 8 => Some VOLUME_CHANGED
  | 9 => Some MUTE_TOGGLED | 10 => Some METADATA_UPDATED
  | 11 => Some FAVORITE_ADDED | 12 => Some FAVORITE_REMOVED
  | 13 => Some FAVORITE_UPDATED | 14 => Some FAVORITES_REORDERED
  | 15 => Some CATEGORY_ADDED | 16 => Some CATEGORY_REMOVED
  | 17 => Some CATEGORY_UPDATED | 18 => Some SEARCH_STARTED
  | 19 => Some SEARCH_COMPLETED | 20 => Some SEARCH_ERROR
  | 21 => Some WINDOW_OPENED | 22 => Some WINDOW_CLOSED
  | 23 => Some TAB_CHANGED | 24 => Some PLUGIN_LOADED
  | 25 => Some PLUGIN_UNLOADED | 26 => Some PLUGIN_ERROR
  | 27 => Some CONFIG_CHANGED | 28 => Some INTERNET_CONNECTED
  | 29 => Some INTERNET_DISCONNECTED
  | _ => None
  end%positive.

#[global] Instance EventType_countable : Countable EventType.
Proof.
  apply (inj_countable EventType_value EventType_of_value).
  intros []; reflexivity.
Defined.

(** An entry of a subscriber list: a [weakref.ref] to a callback object, or
    the [StrongRef] wrapper that holds the callback itself. Callback
    objects are named by a number. *)
Inductive Ref :=
| WeakRef (callback : nat)
| StrongRef (callback : nat).

#[global] Instance Ref_eq_dec : EqDecision Ref.
Proof. solve_decision. Defined.

Section Bus.

(** The type of the data that travels with an event. *)
Context {Data : Type}.

(** What the rest of the process decides during one [emit]: which callback
    objects the garbage collector has not reclaimed, and which callbacks
    raise on which data. Callbacks that call back into the bus are outside
    the model. *)
Record Env := mkEnv {
  alive : nat → bool;
  raises : nat → Data → bool }.

Record EventBus := mkEventBus {
  _subscribers : gmap EventType (list Ref);
  _enabled : bool }.

(** [EventBus.__init__]. *)
Definition EventBus_init : EventBus := mkEventBus ∅ true.

(** [ref()]: the callback, or [None] once a weakly held callback is gone. *)
Definition call_ref (env : Env) (ref : Ref) : option nat :=
  match ref with
  | WeakRef callback => if alive env callback then Some callback else None
  | StrongRef callback => Some callback
  end.

(** [subscribe(event_type, callback, weak)]. *)
Definition subscribe (event_type : EventType) (callback : nat) (weak : bool)
    (b : EventBus) : EventBus :=
  let subscribers := default [] (_subscribers b !! event_type) in
  let ref := if weak then WeakRef callback else StrongRef callback in
  mkEventBus (<[event_type := subscribers ++ [ref]]> (_subscribers b))
    (_enabled b).

(** [unsubscribe_all]. *)
Definition unsubscribe_all (event_type : option EventType) (b : EventBus)
  : EventBus :=
  match event_type with
  | None => mkEventBus ∅ (_enabled b)
  | Some t =>
      match _subscribers b !! t with
      | Some _ => mkEventBus (<[t := []]> (_subscribers b)) (_enabled b)
      | None => b
      end
  end.



(** What one [emit] leaves behind and returns: the bus, the number it
    returns, and the calls [callback(data)] it made, in order. *)
Record Emitted := mkEmitted {
  bus_after : EventBus;
  notified : Z;
  calls : list (nat * Data) }.

(** The [for ref in self._subscribers[event_type]] loop of [emit], with its
    three accumulators. *)
Fixpoint notify (env : Env) (data : Data) (refs : list Ref)
    (alive_refs : list Ref) (notified : Z) (calls : list (nat * Data))
  : list Ref * Z * list (nat * Data) :=
  match refs with
  | [] => (alive_refs, notified, calls)
  | ref :: rest =>
      match call_ref env ref with
      | Some callback =>
          notify env data rest (alive_refs ++ [ref])
            (if raises env callback data then notified else notified + 1)
            (calls ++ [(callback, data)])
      | None => notify env data rest alive_refs notified calls
      end
  end.

(** [emit(event_type, data)]. *)
Definition emit (env : Env) (event_type : EventType) (data : Data)
    (b : EventBus) : Emitted :=
  if negb (_enabled b) then mkEmitted b 0 []
  else
    match _subscribers b !! event_type with
    | None => mkEmitted b 0 []
    | Some refs =>
        let '(alive_refs, notified, calls) := notify env data refs [] 0 [] in
        mkEmitted
          (mkEventBus (<[event_type := alive_refs]> (_subscribers b))
             (_enabled b))
          notified calls
    end.

(** [get_subscriber_count]. *)
Definition get_subscriber_count (env : Env) (event_type : EventType)
    (b : EventBus) : Z :=
  match _subscribers b !! event_type with
  | None => 0
  | Some refs =>
      Z.of_nat (length (filter (λ ref, is_Some (call_ref env ref)) refs))
  end.

(** A run of [subscribe] calls, in order. *)
Definition subscribe_each (subs : list (EventType * nat * bool)) (b : EventBus)
  : EventBus :=
  foldl (λ b s, subscribe s.1.1 s.1.2 s.2 b) b subs.

(** The callbacks that a run of subscriptions leaves reachable for one
    event type, in the order of the [subscribe] calls. *)
Definition live_callbacks (env : Env) (event_type : EventType)
    (subs : list (EventType * nat * bool)) : list nat :=
  omap (λ s : EventType * nat * bool,
          if bool_decide (s.1.1 = event_type)
          then call_ref env (if s.2 then WeakRef s.1.2 else StrongRef s.1.2)
          else None) subs.

(** *** What [emit] does *)

Definition reachable (env : Env) (ref : Ref) : Prop := is_Some (call_ref env ref).

#[global] Instance reachable_dec env ref : Decision (reachable env ref).
Proof. unfold reachable. apply _. Defined.

Definition with_data (data : Data) (callback : nat) : nat * Data :=
  (callback, data).

Lemma notify_spec env data refs : ∀ alive_refs n cs,
  notify env data refs alive_refs n cs
  = (alive_refs ++ filter (reachable env) refs,
     n + Z.of_nat (length (filter (λ cb, raises env cb data = false)
                             (omap (call_ref env) refs))),
     cs ++ (with_data data <$> omap (call_ref env) refs)).
Proof.
  induction refs as [|ref refs IH]; intros alive_refs n cs; simpl.
  - by rewrite !app_nil_r, Z.add_0_r.
  - destruct (call_ref env ref) as [cb|] eqn:Hcall.
    + rewrite IH. rewrite filter_cons_True by (unfold reachable; rewrite Hcall; eauto).
      rewrite <- !app_assoc. simpl.
      destruct (raises env cb data) eqn:Hraise.
      * rewrite filter_cons_False by congruence. reflexivity.
      * rewrite filter_cons_True by done. simpl length.
        rewrite Nat2Z.inj_succ, <- Z.add_1_l, Z.add_assoc. reflexivity.
    + rewrite IH. rewrite filter_cons_False; [done|].
      unfold reachable. rewrite Hcall. by intros [? ?].
Qed.


Lemma omap_call_ref_reachable env (refs : list Ref) :
  omap (call_ref env) (filter (reachable env) refs) = omap (call_ref env) refs.
Proof.
  induction refs as [|ref refs IH]; [done|]. cbn [omap list_omap].
  destruct (call_ref env ref) as [cb|] eqn:Hcall.
  - rewrite filter_cons_True by (unfold reachable; rewrite Hcall; eauto).
    cbn [omap list_omap]. by rewrite Hcall, IH.
  - rewrite filter_cons_False; [done|].
    unfold reachable. rewrite Hcall. by intros [? ?].
Qed.

(** The subscriber list as [emit] reads it: empty for an unknown type. *)
Definition subscribers_of (event_type : EventType) (b : EventBus) : list Ref :=
  default [] (_subscribers b !! event_type).

Lemma emit_enabled env event_type data b :
  _enabled b = true →
  calls (emit env event_type data b)
  = with_data data <$> omap (call_ref env) (subscribers_of event_type b)
  ∧ notified (emit env event_type data b)
    = Z.of_nat (length (filter (λ cb, raises env cb data = false)
                          (omap (call_ref env) (subscribers_of event_type b))))
  ∧ subscribers_of event_type (bus_after (emit env event_type data b))
    = filter (reachable env) (subscribers_of event_type b)
  ∧ _enabled (bus_after (emit env event_type data b)) = true.
Proof.
  intros Hen. unfold emit, subscribers_of. rewrite Hen. simpl.
  destruct (_subscribers b !! event_type) as [refs|] eqn:Hrefs; simpl.
  - rewrite notify_spec. simpl. by rewrite lookup_insert_eq.
  - by rewrite Hrefs.
Qed.

Lemma subscribers_of_subscribe event_type callback weak b t :
  subscribers_of t (subscribe event_type callback weak b)
  = if bool_decide (event_type = t)
    then subscribers_of t b
         ++ [if weak then WeakRef callback else StrongRef callback]
    else subscribers_of t b.
Proof.
  unfold subscribers_of, subscribe; simpl. case_bool_decide as Ht.
  - subst. by rewrite lookup_insert_eq.
  - by rewrite lookup_insert_ne.
Qed.

Lemma subscribe_each_spec event_type subs : ∀ b,
  _enabled (subscribe_each subs b) = _enabled b
  ∧ subscribers_of event_type (subscribe_each subs b)
    = subscribers_of event_type b
      ++ omap (λ s : EventType * nat * bool,
                 if bool_decide (s.1.1 = event_type)
                 then Some (if s.2 then WeakRef s.1.2 else StrongRef s.1.2)
                 else None) subs.
Proof.
  induction subs as [|s subs IH]; intros b; simpl.
  - by rewrite app_nil_r.
  - destruct (IH (subscribe s.1.1 s.1.2 s.2 b)) as [-> ->].
    split; [done|]. rewrite subscribers_of_subscribe.
    case_bool_decide; [by rewrite <- app_assoc | done].
Qed.


(** *** The order of the calls *)

Lemma emit_twice env event_type data (b : EventBus) :
  calls (emit env event_type data (bus_after (emit env event_type data b)))
  = calls (emit env event_type data b).
Proof.
  destruct (_enabled b) eqn:Hen.
  - destruct (emit_enabled env event_type data b Hen) as (Hc & _ & Hs & Hen').
    destruct (emit_enabled env event_type data _ Hen') as (Hc' & _).
    by rewrite Hc', Hs, omap_call_ref_reachable, Hc.
  - unfold emit at 2 3. rewrite Hen. simpl. unfold emit. by rewrite Hen.
Qed.

Lemma live_callbacks_refs env event_type subs :
  live_callbacks env event_type subs
  = omap (call_ref env)
      (omap (λ s : EventType * nat * bool,
               if bool_decide (s.1.1 = event_type)
               then Some (if s.2 then WeakRef s.1.2 else StrongRef s.1.2)
               else None) subs).
Proof.
  unfold live_callbacks. induction subs as [|s subs IH]; [done|].
  cbn [omap list_omap]. case_bool_decide; [|exact IH].
  cbn [omap list_omap]. by rewrite IH.
Qed.

(** C6, as the code has it: the subscribers of an event type are kept in a
    list, [subscribe] appends to it and [emit] walks it from the front. So
    after any run of [subscribe] calls on a new bus, [emit] calls the
    reachable callbacks of the event type in the order in which they
    subscribed, and a second [emit] makes the same calls in the same
    order. *)
Theorem emit_in_subscription_order env event_type data subs :
  calls (emit env event_type data (subscribe_each subs EventBus_init))
  = with_data data <$> live_callbacks env event_type subs
  ∧ calls (emit env event_type data
             (bus_after (emit env event_type data
                           (subscribe_each subs EventBus_init))))
    = with_data data <$> live_callbacks env event_type subs.
Proof.
  rewrite emit_twice.
  destruct (subscribe_each_spec event_type subs EventBus_init) as [Hen Hs].
  destruct (emit_enabled env event_type data _ Hen) as (Hc & _).
  rewrite Hc, Hs, live_callbacks_refs. done.
Qed.

(** *** More on the bus *)



Lemma get_subscriber_count_subscribers env event_type (b : EventBus) :
  get_subscriber_count env event_type b
  = Z.of_nat (length (filter (reachable env) (subscribers_of event_type b))).
Proof.
  unfold get_subscriber_count, subscribers_of.
  by destruct (_subscribers b !! event_type).
Qed.




(** X10: After [unsubscribe_all(event_type)] an [emit] of that type calls
    nobody and returns 0, and the other types are served as before; after
    [unsubscribe_all()] that holds for every type. *)
Theorem unsubscribe_all_silences env data (b : EventBus) :
  (∀ t, calls (emit env t data (unsubscribe_all (Some t) b)) = []
        ∧ notified (emit env t data (unsubscribe_all (Some t) b)) = 0
        ∧ get_subscriber_count env t (unsubscribe_all (Some t) b) = 0)
  ∧ (∀ t t', t' ≠ t →
       subscribers_of t' (unsubscribe_all (Some t) b) = subscribers_of t' b
       ∧ calls (emit env t' data (unsubscribe_all (Some t) b))
         = calls (emit env t' data b)
       ∧ notified (emit env t' data (unsubscribe_all (Some t) b))
         = notified (emit env t' data b))
  ∧ (∀ t, calls (emit env t data (unsubscribe_all None b)) = []
          ∧ notified (emit env t data (unsubscribe_all None b)) = 0
          ∧ get_subscriber_count env t (unsubscribe_all None b) = 0).
Proof.
  assert (Hsilent : ∀ t (b' : EventBus), subscribers_of t b' = [] →
            calls (emit env t data b') = [] ∧ notified (emit env t data b') = 0
            ∧ get_subscriber_count env t b' = 0).
  { intros t b' Hnone. rewrite get_subscriber_count_subscribers, Hnone.
    destruct (_enabled b') eqn:Hen.
    - destruct (emit_enabled env t data b' Hen) as (-> & -> & _).
      by rewrite Hnone.
    - unfold emit. by rewrite Hen. }
  assert (Hsame : ∀ t (b1 b2 : EventBus),
            _enabled b1 = _enabled b2 → subscribers_of t b1 = subscribers_of t b2 →
            calls (emit env t data b1) = calls (emit env t data b2)
            ∧ notified (emit env t data b1) = notified (emit env t data b2)).
  { intros t b1 b2 Hen Hsubs. destruct (_enabled b2) eqn:Hen2.
    - destruct (emit_enabled env t data b1 Hen) as (-> & -> & _).
      destruct (emit_enabled env t data b2 Hen2) as (-> & -> & _).
      by rewrite Hsubs.
    - unfold emit. by rewrite Hen, Hen2. }
  split; [|split].
  - intros t. apply Hsilent. unfold subscribers_of, unsubscribe_all.
    destruct (_subscribers b !! t) eqn:Ht; simpl.
    + by rewrite lookup_insert_eq.
    + by rewrite Ht.
  - intros t t' Hne.
    assert (Hsubs : subscribers_of t' (unsubscribe_all (Some t) b)
                    = subscribers_of t' b).
    { unfold subscribers_of, unsubscribe_all.
      destruct (_subscribers b !! t); simpl; [|done].
      by rewrite lookup_insert_ne. }
    split; [exact Hsubs|]. apply Hsame; [|exact Hsubs].
    unfold unsubscribe_all. by destruct (_subscribers b !! t).
  - intros t. apply Hsilent. unfold subscribers_of, unsubscribe_all. simpl.
    by rewrite lookup_empty.
Qed.


(** X12: [subscribe] adds one to the subscriber count of its event type when
    the callback is held strongly or is still reachable, nothing when it
    is held weakly and already collected, and leaves the counts of the
    other types alone. *)
Theorem subscribe_counts env event_type callback weak (b : EventBus) :
  get_subscriber_count env event_type (subscribe event_type callback weak b)
  = get_subscriber_count env event_type b
    + (if weak && negb (alive env callback) then 0 else 1)
  ∧ ∀ t, t ≠ event_type →
         get_subscriber_count env t (subscribe event_type callback weak b)
         = get_subscriber_count env t b.
Proof.
  split.
  - rewrite !get_subscriber_count_subscribers, subscribers_of_subscribe.
    rewrite bool_decide_eq_true_2 by done. rewrite filter_app, length_app.
    destruct weak; cbn [andb negb].
    + destruct (alive env callback) eqn:Halive; cbn [andb negb].
      * rewrite filter_cons_True, filter_nil; [simpl length; lia|].
        unfold reachable. simpl. rewrite Halive. eauto.
      * rewrite filter_cons_False, filter_nil; [simpl length; lia|].
        unfold reachable. simpl. rewrite Halive. by intros [? ?].
    + rewrite filter_cons_True, filter_nil; [simpl length; lia|].
      unfold reachable. simpl. eauto.
  - intros t Ht. rewrite !get_subscriber_count_subscribers.
    rewrite subscribers_of_subscribe. by rewrite bool_decide_eq_false_2.
Qed.

End Bus.

Arguments Env : clear implicits.
Arguments Emitted : clear implicits.

(** Two subscribers, the first held weakly and the second strongly: both
    runs call 1 and then 2. *)
Definition demo_env : Env Z := mkEnv (λ _, true) (λ _ _, false).

Definition demo_bus : EventBus :=
  subscribe PLAYBACK_STARTED 2 false
    (subscribe PLAYBACK_STARTED 1 true EventBus_init).

Example demo_emit_order :
  calls (emit demo_env PLAYBACK_STARTED 7 demo_bus) = [(1%nat, 7); (2%nat, 7)]
  ∧ notified (emit demo_env PLAYBACK_STARTED 7 demo_bus) = 2
  ∧ calls (emit demo_env PLAYBACK_STARTED 7
             (bus_after (emit demo_env PLAYBACK_STARTED 7 demo_bus)))
    = [(1%nat, 7); (2%nat, 7)].
Proof. vm_compute. auto. Qed.


(** C6 as written fails: no bus, whatever its subscriptions, has two runs
    of [emit] that call the subscribers in different orders. *)
Lemma emit_order_is_fixed :
  ¬ ∃ (env : Env Z) (b : EventBus) (event_type : EventType) (data : Z),
      calls (emit env event_type data (bus_after (emit env event_type data b)))
      ≠ calls (emit env event_type data b).
Proof. intros (env & b & t & data & Hdiff). apply Hdiff, emit_twice. Qed.

End Events.

(** ** api_client.py *)
Module ApiClient.

(** An exception raised inside the [try] of [_get]: [response] is the
    status code of [e.response] when the exception has a response (as the
    error of [raise_for_status] has), [None] for connection errors,
    timeouts, a missing HTTP client and the like. *)
Record RequestError := mkRequestError {
  response : option Z;
  message : string }.

(** How a call ends: with the decoded JSON, or with an exception. *)
Inductive Outcome (Json : Type) :=
| Returned (json : Json)
| Raised (e : RequestError).
Arguments Returned {Json} json.
Arguments Raised {Json} e.

(** The fields of [RadioBrowserAPI] that failover reads and writes. *)
Record RadioBrowserAPI := mkRadioBrowserAPI {
  _base_url : string;
  _available_servers : list string }.

Definition FALLBACK_SERVERS : list string :=
  ["de1.api.radio-browser.info"; "nl1.api.radio-browser.info";
   "at1.api.radio-browser.info"].

(** The value of [should_retry] in the [except] branch of [_get]. *)
Definition should_retry (retry_count : Z) (e : RequestError) : bool :=
  if bool_decide (retry_count < 3) then
    match response e with
    | Some status_code => bool_decide (500 <= status_code < 600)
    | None => true
    end
  else false.

Lemma should_retry_lt retry_count e :
  should_retry retry_count e = true → retry_count < 3.
Proof. unfold should_retry. case_bool_decide; [done | discriminate]. Qed.

(** [l.index(x)]: the first position of [x], when it occurs. *)
Definition list_index (x : string) (l : list string) : option nat :=
  fst <$> list_find (λ y, y = x) l.

(** The hosts the loop of [_discover_servers] collects. *)
Definition discovered_hosts (found : list (option string)) : list string :=
  foldl (λ hosts h, match h with
                    | Some host => if bool_decide (host ∈ hosts) then hosts
                                   else hosts ++ [host]
                    | None => hosts
                    end) [] found.

Lemma collect_hosts (found : list (option string)) : ∀ hosts : list string,
  NoDup hosts →
  let collected :=
    foldl (λ hosts h, match h with
                      | Some host => if bool_decide (host ∈ hosts) then hosts
                                     else hosts ++ [host]
                      | None => hosts
                      end) hosts found in
  NoDup collected ∧ ∀ h, h ∈ collected ↔ h ∈ hosts ∨ Some h ∈ found.
Proof.
  induction found as [|[host|] found IH]; intros hosts Hnd; simpl.
  - split; [done|]. intros h. rewrite elem_of_nil. tauto.
  - case_bool_decide as Hin.
    + destruct (IH hosts Hnd) as [IHnd IHin]. split; [done|].
      intros h. rewrite IHin, elem_of_cons.
      split; [tauto|]. intros [?|[ [= ->]|?]]; tauto.
    + destruct (IH (hosts ++ [host])) as [IHnd IHin].
      { apply NoDup_app. split; [done|]. split; [|apply NoDup_singleton].
        intros x Hx ->%list_elem_of_singleton. done. }
      split; [done|]. intros h.
      rewrite IHin, elem_of_app, list_elem_of_singleton, elem_of_cons.
      split; [intros [[?| ->]|?]; tauto|]. intros [?|[ [= ->]|?]]; tauto.
  - destruct (IH hosts Hnd) as [IHnd IHin]. split; [done|].
    intros h. rewrite IHin, elem_of_cons.
    split; [tauto|]. intros [?|[?|?]]; [tauto|done|tauto].
Qed.

Lemma https_inj (h1 h2 : string) :
  "https://" +:+ h1 = "https://" +:+ h2 → h1 = h2.
Proof. intros Heq. injection Heq as Heq. exact Heq. Qed.

Lemma FALLBACK_SERVERS_NoDup : NoDup FALLBACK_SERVERS.
Proof. apply (bool_decide_unpack _). by vm_compute. Qed.

Lemma discovered_hosts_spec (found : list (option string)) :
  NoDup (discovered_hosts found)
  ∧ ∀ h, h ∈ discovered_hosts found ↔ Some h ∈ found.
Proof.
  destruct (collect_hosts found [] (NoDup_nil_2)) as [Hnd Hin].
  split; [exact Hnd|]. intros h. unfold discovered_hosts.
  rewrite Hin, elem_of_nil. tauto.
Qed.

Lemma list_index_elem x (l : list string) :
  x ∈ l → ∃ idx, list_index x l = Some idx.
Proof.
  intros Hx. unfold list_index.
  destruct (list_find (λ y, y = x) l) as [[i y]|] eqn:Hfind; [by eexists|].
  apply list_find_None in Hfind. rewrite Forall_forall in Hfind.
  by destruct (Hfind x Hx).
Qed.

Lemma next_index_same (idx len : nat) :
  (idx < len)%nat → ((idx + 1) mod len)%nat = idx → len = 1%nat.
Proof.
  intros Hlt Hsame. destruct (decide (idx + 1 = len)%nat) as [Heq|Hne].
  - rewrite Heq, Nat.Div0.mod_same in Hsame. lia.
  - rewrite Nat.mod_small in Hsame by lia. lia.
Qed.

Section Client.

(** The world outside the client: [Net] is the state of the network and
    of the random generator. [session_get url params] is the request with
    its [raise_for_status()] and [json()]; [reverse_lookups] is what
    [getaddrinfo] and [gethostbyaddr] find for the directory's name, one
    entry per address ([None] where the reverse lookup fails, no entry at
    all where the resolution fails); [random_choice] is [random.choice];
    [urljoin] is the library function. *)
Context {Json Params Net : Type}.
Variable session_get : string → Params → Net → Net * Outcome Json.
Variable reverse_lookups : Net → Net * list (option string).
Variable random_choice : list string → Net → Net * string.
Variable urljoin : string → string → string.

(** What a run of [_get] does, in order: a request sent to the server
    [base_url], or a rotation to it. *)
Inductive ApiEvent :=
| EvGet (base_url endpoint : string) (params : Params)
| EvRotate (base_url : string).

(** [_discover_servers]. *)
Definition _discover_servers (net : Net) : Net * list string :=
  let '(net1, found) := reverse_lookups net in
  let hosts :=
    foldl (λ hosts h, match h with
                      | Some host => if bool_decide (host ∈ hosts) then hosts
                                     else hosts ++ [host]
                      | None => hosts
                      end) [] found in
  let hosts := match hosts with [] => FALLBACK_SERVERS | _ => hosts end in
  (net1, (λ h, "https://" +:+ h) <$> hosts).

(** [_rotate_server]; the url it returns is the new [_base_url]. *)
Definition _rotate_server (api : RadioBrowserAPI) (net : Net)
  : Net * RadioBrowserAPI :=
  let '(net1, servers) :=
    if bool_decide (length (_available_servers api) <= 1)%nat
    then _discover_servers net
    else (net, _available_servers api) in
  match list_index (_base_url api) servers with
  | Some idx =>
      let next_idx := ((idx + 1) mod length servers)%nat in
      (net1, mkRadioBrowserAPI (default (_base_url api) (servers !! next_idx)) servers)
  | None =>
      let '(net2, chosen) := random_choice servers net1 in
      (net2, mkRadioBrowserAPI chosen servers)
  end.

(** What [_get] leaves behind and returns. *)
Record Got := mkGot {
  net_after : Net;
  api_after : RadioBrowserAPI;
  outcome : Outcome Json;
  events : list ApiEvent }.

(** A run that continues another one. *)
Definition after (evs : list ApiEvent) (g : Got) : Got :=
  mkGot (net_after g) (api_after g) (outcome g) (evs ++ events g).

(** [_get(endpoint, params, retry_count)]. It calls itself with
    [retry_count + 1] only when [retry_count < 3], so [3 - retry_count]
    decreases. *)
Equations? _get (endpoint : string) (params : Params) (retry_count : Z)
    (api : RadioBrowserAPI) (net : Net) : Got
  by wf (Z.to_nat (3 - retry_count)) lt :=
_get endpoint params retry_count api net
  with inspect (session_get (urljoin (_base_url api +:+ "/json/") endpoint) params net) := {
  | exist _ (net1, Returned json) _ =>
      mkGot net1 api (Returned json) [EvGet (_base_url api) endpoint params];
  | exist _ (net1, Raised e) _ with inspect (should_retry retry_count e) := {
    | exist _ true Hretry =>
        after [EvGet (_base_url api) endpoint params;
               EvRotate (_base_url (_rotate_server api net1).2)]
          (_get endpoint params (retry_count + 1)
             (_rotate_server api net1).2 (_rotate_server api net1).1);
    | exist _ false _ =>
        mkGot net1 api (Raised e) [EvGet (_base_url api) endpoint params] } }.
Proof. apply should_retry_lt in Hretry. lia. Qed.

(** How many requests and how many rotations a run made. *)
Definition is_request (ev : ApiEvent) : bool :=
  match ev with
  | EvGet _ _ _ => true
  | EvRotate _ => false
  end.

Definition requests (evs : list ApiEvent) : nat :=
  length (filter (λ ev, is_request ev = true) evs).

Definition rotations (evs : list ApiEvent) : nat :=
  length (filter (λ ev, is_request ev = false) evs).

(** Every request of a run asks for this endpoint with these parameters. *)
Definition all_for (endpoint : string) (params : Params) (evs : list ApiEvent)
  : Prop :=
  Forall (λ ev, match ev with
                | EvGet _ endpoint' params' =>
                    endpoint' = endpoint ∧ params' = params
                | EvRotate _ => True
                end) evs.

(** The body of [_get], as the source has it. *)
Lemma _get_body endpoint params retry_count api net :
  _get endpoint params retry_count api net
  = match session_get (urljoin (_base_url api +:+ "/json/") endpoint) params net with
    | (net1, Returned json) =>
        mkGot net1 api (Returned json) [EvGet (_base_url api) endpoint params]
    | (net1, Raised e) =>
        if should_retry retry_count e
        then after [EvGet (_base_url api) endpoint params;
                    EvRotate (_base_url (_rotate_server api net1).2)]
               (_get endpoint params (retry_count + 1)
                  (_rotate_server api net1).2 (_rotate_server api net1).1)
        else mkGot net1 api (Raised e) [EvGet (_base_url api) endpoint params]
    end.
Proof.
  funelim (_get endpoint params retry_count api net);
    match goal with
    | Hget : session_get _ _ _ = _ |- _ => rewrite Hget
    end; try reflexivity.
  - match goal with Hretry : should_retry _ _ = true |- _ => by rewrite Hretry end.
  - match goal with Hretry : should_retry _ _ = false |- _ => by rewrite Hretry end.
Qed.

Lemma _get_events endpoint params : ∀ n retry_count api net,
  Z.to_nat (3 - retry_count) = n →
  all_for endpoint params (events (_get endpoint params retry_count api net))
  ∧ (rotations (events (_get endpoint params retry_count api net)) ≤ n)%nat
  ∧ requests (events (_get endpoint params retry_count api net))
    = S (rotations (events (_get endpoint params retry_count api net))).
Proof.
  assert (Hone : ∀ base_url m,
            all_for endpoint params [EvGet base_url endpoint params]
            ∧ (rotations [EvGet base_url endpoint params] ≤ m)%nat
            ∧ requests [EvGet base_url endpoint params]
              = S (rotations [EvGet base_url endpoint params])).
  { intros base_url m. split; [|split]; [|apply Nat.le_0_l|reflexivity].
    constructor; [done | constructor]. }
  induction n as [|n IH]; intros retry_count api net Hn; rewrite _get_body;
    destruct (session_get _ params net) as [net1 [json|e]];
    try exact (Hone _ _).
  - assert (should_retry retry_count e = false) as ->; [|exact (Hone _ _)].
    unfold should_retry. by rewrite bool_decide_eq_false_2 by lia.
  - destruct (should_retry retry_count e) eqn:Hretry; [|exact (Hone _ _)].
    apply should_retry_lt in Hretry.
    destruct (IH (retry_count + 1) (_rotate_server api net1).2
                (_rotate_server api net1).1 ltac:(lia))
      as (IHall & IHrot & IHreq).
    unfold after; simpl. split; [|split].
    + constructor; [done|]. constructor; [done|]. exact IHall.
    + unfold rotations in *. rewrite filter_cons_False by done.
      rewrite filter_cons_True by done. simpl. lia.
    + unfold requests, rotations in *.
      rewrite (filter_cons_True (λ ev, is_request ev = true)) by done.
      rewrite (filter_cons_False (λ ev, is_request ev = true)) by done.
      rewrite (filter_cons_False (λ ev, is_request ev = false)) by done.
      rewrite (filter_cons_True (λ ev, is_request ev = false)) by done.
      simpl. by rewrite IHreq.
Qed.

Lemma list_index_Some x l idx :
  list_index x l = Some idx →
  l !! idx = Some x ∧ (idx < length l)%nat
  ∧ ∀ j, (j < idx)%nat → l !! j ≠ Some x.
Proof.
  unfold list_index. destruct (list_find _ l) as [[i y]|] eqn:Hfind; [|done].
  simpl. intros [= <-]. apply list_find_Some in Hfind as (Hi & -> & Hfirst).
  split; [done|]. split; [by eapply lookup_lt_Some|].
  intros j Hj Hx. by apply (Hfirst j x).
Qed.

(** The list of servers [_rotate_server] picks from: the known one when it
    has at least two entries, a newly discovered one otherwise. *)
Definition rotation_servers (api : RadioBrowserAPI) (net : Net) : list string :=
  if bool_decide (length (_available_servers api) <= 1)%nat
  then (_discover_servers net).2
  else _available_servers api.

Lemma _rotate_server_servers api net :
  _available_servers (_rotate_server api net).2 = rotation_servers api net.
Proof.
  unfold _rotate_server, rotation_servers.
  case_bool_decide; [destruct (_discover_servers net) as [net1 servers]|];
    simpl; destruct (list_index _ _); simpl; try done;
    by destruct (random_choice _ _).
Qed.

Lemma _rotate_server_next api net idx :
  list_index (_base_url api) (rotation_servers api net) = Some idx →
  rotation_servers api net
    !! ((idx + 1) mod length (rotation_servers api net))%nat
  = Some (_base_url (_rotate_server api net).2).
Proof.
  intros Hidx. pose proof (list_index_Some _ _ _ Hidx) as (_ & Hlt & _).
  assert (Hnext : ((idx + 1) mod length (rotation_servers api net)
                   < length (rotation_servers api net))%nat).
  { apply Nat.mod_upper_bound. lia. }
  apply lookup_lt_is_Some_2 in Hnext as [next Hnext]. rewrite Hnext.
  revert Hidx Hnext. unfold _rotate_server, rotation_servers.
  case_bool_decide; [destruct (_discover_servers net) as [net1 servers]|];
    simpl; intros -> Hnext; simpl; by rewrite Hnext.
Qed.

(** C4: a request that raises with a response whose status is in 500-599,
    or with no response at all, is followed, while fewer than 3 retries
    have been made, by one call of [_rotate_server] and a new [_get] for
    the same endpoint and parameters with the retry count one higher. A
    request that raises with a status outside 500-599, or after 3 retries,
    gives that exception to the caller with no rotation and no further
    request. A run that starts with a retry count of 0 or more (the callers
    start at 0) makes at most 3 rotations; every run makes one request more
    than rotations, each for the same endpoint and parameters.
    When the current server is in the list of servers that
    [_rotate_server] picks from, at index [idx], the new server is the one
    at index [(idx + 1) mod len]. *)
Theorem get_failover_spec endpoint params retry_count api net :
  let url := urljoin (_base_url api +:+ "/json/") endpoint in
  let got := _get endpoint params retry_count api net in
  (∀ net1 e,
     session_get url params net = (net1, Raised e) →
     retry_count < 3 →
     (response e = None
      ∨ ∃ status_code, response e = Some status_code ∧ 500 <= status_code < 600) →
     got = after [EvGet (_base_url api) endpoint params;
                  EvRotate (_base_url (_rotate_server api net1).2)]
             (_get endpoint params (retry_count + 1)
                (_rotate_server api net1).2 (_rotate_server api net1).1))
  ∧ (∀ net1 e status_code,
       session_get url params net = (net1, Raised e) →
       response e = Some status_code →
       ¬ (500 <= status_code < 600) →
       got = mkGot net1 api (Raised e) [EvGet (_base_url api) endpoint params])
  ∧ (∀ net1 e,
       session_get url params net = (net1, Raised e) →
       3 <= retry_count →
       got = mkGot net1 api (Raised e) [EvGet (_base_url api) endpoint params])
  ∧ (∀ net1 json,
       session_get url params net = (net1, Returned json) →
       got = mkGot net1 api (Returned json)
               [EvGet (_base_url api) endpoint params])
  ∧ (0 <= retry_count → (rotations (events got) ≤ 3)%nat)
  ∧ (rotations (events got) ≤ Z.to_nat (3 - retry_count))%nat
  ∧ requests (events got) = S (rotations (events got))
  ∧ all_for endpoint params (events got)
  ∧ (∀ net0 idx,
       list_index (_base_url api) (rotation_servers api net0) = Some idx →
       _available_servers (_rotate_server api net0).2 = rotation_servers api net0
       ∧ rotation_servers api net0 !! idx = Some (_base_url api)
       ∧ rotation_servers api net0
           !! ((idx + 1) mod length (rotation_servers api net0))%nat
         = Some (_base_url (_rotate_server api net0).2)).
Proof.
  intros url got. subst url got.
  destruct (_get_events endpoint params _ retry_count api net eq_refl)
    as (Hall & Hrot & Hreq).
  repeat match goal with |- _ ∧ _ => split end.
  - intros net1 e Hget Hlt Hkind. rewrite _get_body, Hget.
    unfold should_retry. rewrite bool_decide_eq_true_2 by done.
    destruct Hkind as [-> | (status_code & -> & Hrange)]; [done|].
    by rewrite bool_decide_eq_true_2.
  - intros net1 e status_code Hget Hstatus Hout. rewrite _get_body, Hget.
    unfold should_retry. rewrite Hstatus.
    rewrite (bool_decide_eq_false_2 (500 <= _ < _)) by done.
    by case_bool_decide.
  - intros net1 e Hget Hge. rewrite _get_body, Hget.
    unfold should_retry. by rewrite bool_decide_eq_false_2 by lia.
  - intros net1 json Hget. by rewrite _get_body, Hget.
  - intros Hpos. lia.
  - exact Hrot.
  - exact Hreq.
  - exact Hall.
  - intros net0 idx Hidx. split; [apply _rotate_server_servers|].
    split; [apply (list_index_Some _ _ _ Hidx)|].
    by apply _rotate_server_next.
Qed.

(** *** The servers the client knows and moves between *)

(** [RadioBrowserAPI.__init__(base_url)], as far as the two fields go. *)
Definition RadioBrowserAPI_init (base_url : option string) (net : Net)
  : Net * RadioBrowserAPI :=
  match base_url with
  | None =>
      let '(net1, servers) := _discover_servers net in
      match servers with
      | [] =>
          let '(net2, chosen) := random_choice FALLBACK_SERVERS net1 in
          (net2, mkRadioBrowserAPI ("https://" +:+ chosen) servers)
      | _ =>
          let '(net2, chosen) := random_choice servers net1 in
          (net2, mkRadioBrowserAPI chosen servers)
      end
  | Some url => (net, mkRadioBrowserAPI url [url])
  end.

(** [random.choice] returns a member of a non-empty list. *)
Definition random_choice_sound : Prop :=
  ∀ (l : list string) net, l ≠ [] → (random_choice l net).2 ∈ l.

(** The client is on a server it knows, and knows no server twice. *)
Definition on_known_server (api : RadioBrowserAPI) : Prop :=
  NoDup (_available_servers api) ∧ _base_url api ∈ _available_servers api.

Lemma _discover_servers_hosts net :
  _discover_servers net
  = ((reverse_lookups net).1,
     (λ h, "https://" +:+ h)
       <$> match discovered_hosts (reverse_lookups net).2 with
           | [] => FALLBACK_SERVERS
           | _ => discovered_hosts (reverse_lookups net).2
           end).
Proof.
  unfold _discover_servers, discovered_hosts.
  by destruct (reverse_lookups net) as [net1 found].
Qed.

Lemma _discover_servers_NoDup net :
  (_discover_servers net).2 ≠ [] ∧ NoDup (_discover_servers net).2.
Proof.
  rewrite _discover_servers_hosts. cbn [snd].
  destruct (discovered_hosts_spec (reverse_lookups net).2) as [Hnd _].
  split.
  - by destruct (discovered_hosts _).
  - apply NoDup_fmap_2; [intros h1 h2; apply https_inj|].
    destruct (discovered_hosts _); [apply FALLBACK_SERVERS_NoDup | done].
Qed.

(** X13: [_discover_servers] never returns an empty list and never the same
    server twice; every entry is [https://] followed by a host. When a
    reverse lookup succeeded, the servers are exactly the hosts found; when
    none did, they are the three fallback servers. *)
Theorem discover_servers_spec net :
  let servers := (_discover_servers net).2 in
  let found := (reverse_lookups net).2 in
  servers ≠ []
  ∧ NoDup servers
  ∧ (∀ s, s ∈ servers → ∃ h, s = "https://" +:+ h)
  ∧ (∀ host, Some host ∈ found →
       ∀ s, s ∈ servers ↔ ∃ h, Some h ∈ found ∧ s = "https://" +:+ h)
  ∧ ((∀ host, Some host ∉ found) →
       servers = (λ h, "https://" +:+ h) <$> FALLBACK_SERVERS).
Proof.
  intros servers found. subst servers.
  destruct (_discover_servers_NoDup net) as [Hne Hnd].
  split; [done|]. split; [done|]. clear Hne Hnd.
  rewrite _discover_servers_hosts. fold found. cbn [snd].
  destruct (discovered_hosts_spec found) as [_ Hin].
  split; [|split].
  - intros s (h & -> & _)%list_elem_of_fmap. eauto.
  - intros host Hhost s. apply Hin in Hhost.
    destruct (discovered_hosts found) as [|h0 hosts] eqn:Hhosts;
      [by apply elem_of_nil in Hhost|].
    rewrite list_elem_of_fmap. split.
    + intros (h & -> & Hh). exists h. split; [by apply Hin|done].
    + intros (h & Hh & ->). exists h. split; [done|by apply Hin].
  - intros Hnone. destruct (discovered_hosts found) as [|h0 hosts]; [done|].
    destruct (Hnone h0). apply Hin. left.
Qed.

Lemma rotation_servers_nonempty api net : rotation_servers api net ≠ [].
Proof.
  unfold rotation_servers. case_bool_decide as Hlen.
  - apply _discover_servers_NoDup.
  - destruct (_available_servers api); simpl in *; [lia|done].
Qed.

Lemma rotation_servers_NoDup api net :
  NoDup (_available_servers api) → NoDup (rotation_servers api net).
Proof.
  intros Hnd. unfold rotation_servers. case_bool_decide; [|done].
  apply _discover_servers_NoDup.
Qed.

Lemma _rotate_server_known api net :
  random_choice_sound →
  _base_url (_rotate_server api net).2 ∈ rotation_servers api net.
Proof.
  intros Hchoice.
  destruct (list_index (_base_url api) (rotation_servers api net)) as [idx|]
    eqn:Hidx.
  - eapply list_elem_of_lookup_2. by apply _rotate_server_next.
  - pose proof (rotation_servers_nonempty api net) as Hne.
    revert Hidx Hne. unfold _rotate_server, rotation_servers.
    case_bool_decide; [destruct (_discover_servers net) as [net1 servers]|];
      simpl; intros -> Hne.
    + pose proof (Hchoice servers net1 Hne) as Hin.
      by destruct (random_choice servers net1).
    + pose proof (Hchoice (_available_servers api) net Hne) as Hin.
      by destruct (random_choice (_available_servers api) net).
Qed.

Lemma _rotate_server_on_known api net :
  random_choice_sound → NoDup (_available_servers api) →
  on_known_server (_rotate_server api net).2.
Proof.
  intros Hchoice Hnd. unfold on_known_server. rewrite _rotate_server_servers.
  split; [by apply rotation_servers_NoDup | by apply _rotate_server_known].
Qed.

(** X14: [_rotate_server] leaves the client on a server of its list, which
    holds no server twice; the client is on the same server as before
    exactly when that server is the only one the list has. *)
Theorem rotate_server_moves api net :
  random_choice_sound →
  NoDup (_available_servers api) →
  let api' := (_rotate_server api net).2 in
  on_known_server api'
  ∧ (_base_url api' = _base_url api ↔ _available_servers api' = [_base_url api]).
Proof.
  intros Hchoice Hnd api'. subst api'.
  split; [by apply _rotate_server_on_known|].
  rewrite _rotate_server_servers.
  pose proof (rotation_servers_NoDup api net Hnd) as Hnd'.
  pose proof (_rotate_server_known api net Hchoice) as Hknown.
  split.
  - intros Hsame. rewrite Hsame in Hknown.
    destruct (list_index_elem _ _ Hknown) as [idx Hidx].
    pose proof (_rotate_server_next api net idx Hidx) as Hnext.
    destruct (list_index_Some _ _ _ Hidx) as (Hat & Hlt & _).
    rewrite Hsame in Hnext.
    pose proof (NoDup_lookup _ _ _ _ Hnd' Hnext Hat) as Heq.
    apply next_index_same in Heq; [|done].
    destruct (rotation_servers api net) as [|s [|s' servers]];
      simpl in *; try lia.
    apply list_elem_of_singleton in Hknown. by subst.
  - intros Hone.
    assert (Hidx : list_index (_base_url api) (rotation_servers api net)
                   = Some 0%nat).
    { rewrite Hone. unfold list_index. simpl. by rewrite decide_True. }
    pose proof (_rotate_server_next api net 0%nat Hidx) as Hnext.
    rewrite Hone in Hnext. simpl in Hnext. congruence.
Qed.

Lemma RadioBrowserAPI_init_known base_url net :
  random_choice_sound → on_known_server (RadioBrowserAPI_init base_url net).2.
Proof.
  intros Hchoice. unfold RadioBrowserAPI_init, on_known_server.
  destruct base_url as [url|]; simpl.
  { split; [apply NoDup_singleton | by left]. }
  destruct (_discover_servers_NoDup net) as (Hne & Hnd).
  destruct (_discover_servers net) as [net1 servers]. simpl in Hne, Hnd.
  destruct servers as [|s servers]; [done|].
  pose proof (Hchoice (s :: servers) net1 Hne) as Hin.
  by destruct (random_choice (s :: servers) net1).
Qed.

Lemma _get_known endpoint params : ∀ n retry_count api net,
  Z.to_nat (3 - retry_count) = n →
  random_choice_sound → on_known_server api →
  on_known_server (api_after (_get endpoint params retry_count api net)).
Proof.
  induction n as [|n IH]; intros retry_count api net Hn Hchoice Hknown;
    rewrite _get_body;
    destruct (session_get _ params net) as [net1 [json|e]]; try done.
  - assert (should_retry retry_count e = false) as ->; [|done].
    unfold should_retry. by rewrite bool_decide_eq_false_2 by lia.
  - destruct (should_retry retry_count e) eqn:Hretry; [|done].
    apply should_retry_lt in Hretry. unfold after; simpl.
    apply IH; [lia|done|].
    apply _rotate_server_on_known; [done|apply Hknown].
Qed.

Lemma _get_head endpoint params retry_count api net :
  head (events (_get endpoint params retry_count api net))
  = Some (EvGet (_base_url api) endpoint params).
Proof.
  rewrite _get_body. destruct (session_get _ params net) as [net1 [json|e]];
    [done|]. by destruct (should_retry retry_count e).
Qed.

Lemma _get_last endpoint params : ∀ n retry_count api net,
  Z.to_nat (3 - retry_count) = n →
  last (events (_get endpoint params retry_count api net))
  = Some (EvGet (_base_url (api_after (_get endpoint params retry_count api net)))
            endpoint params).
Proof.
  induction n as [|n IH]; intros retry_count api net Hn;
    rewrite _get_body;
    destruct (session_get _ params net) as [net1 [json|e]]; try done.
  - assert (should_retry retry_count e = false) as ->; [|done].
    unfold should_retry. by rewrite bool_decide_eq_false_2 by lia.
  - destruct (should_retry retry_count e) eqn:Hretry; [|done].
    apply should_retry_lt in Hretry. unfold after. cbn [events api_after app].
    rewrite !last_cons, IH by lia. done.
Qed.

(** X15: The client is always on a server of its list: [__init__] puts it on
    one, and every [_get], with whatever rotations it makes, leaves it on
    one; the last request of a [_get] went to the server the client is on
    afterwards. *)
Theorem client_on_known_server :
  random_choice_sound →
  (∀ base_url net, on_known_server (RadioBrowserAPI_init base_url net).2)
  ∧ (∀ endpoint params retry_count api net,
       on_known_server api →
       let got := _get endpoint params retry_count api net in
       on_known_server (api_after got)
       ∧ last (events got)
         = Some (EvGet (_base_url (api_after got)) endpoint params)).
Proof.
  intros Hchoice. split.
  - intros base_url net. by apply RadioBrowserAPI_init_known.
  - intros endpoint params retry_count api net Hknown got. subst got. split.
    + by eapply _get_known.
    + by eapply _get_last.
Qed.

Lemma _rotate_server_elsewhere api net :
  on_known_server api → (2 ≤ length (_available_servers api))%nat →
  _available_servers (_rotate_server api net).2 = _available_servers api
  ∧ _base_url (_rotate_server api net).2 ∈ _available_servers api
  ∧ _base_url (_rotate_server api net).2 ≠ _base_url api.
Proof.
  intros [Hnd Hin] Hlen.
  assert (Hservers : rotation_servers api net = _available_servers api).
  { unfold rotation_servers. by rewrite bool_decide_eq_false_2 by lia. }
  rewrite _rotate_server_servers, Hservers. split; [done|].
  destruct (list_index_elem _ _ Hin) as [idx Hidx].
  rewrite <- Hservers in Hidx.
  pose proof (_rotate_server_next api net idx Hidx) as Hnext.
  destruct (list_index_Some _ _ _ Hidx) as (Hat & Hlt & _).
  rewrite Hservers in Hnext, Hat, Hlt. split.
  - by eapply list_elem_of_lookup_2.
  - intros Hsame. rewrite Hsame in Hnext.
    pose proof (NoDup_lookup _ _ _ _ Hnd Hnext Hat) as Heq.
    apply next_index_same in Heq; [lia|done].
Qed.

(** X16: With two or more servers in its list, a [_get] keeps the list as it
    is, and every retry goes to a server of the list other than the one
    whose request has just failed: the rotation after a request names
    another server, and the next request goes to that server. *)
Theorem get_retries_elsewhere endpoint params retry_count api net :
  on_known_server api → (2 ≤ length (_available_servers api))%nat →
  let got := _get endpoint params retry_count api net in
  _available_servers (api_after got) = _available_servers api
  ∧ on_known_server (api_after got)
  ∧ ∀ i a endpoint' params' b,
      events got !! i = Some (EvGet a endpoint' params') →
      events got !! S i = Some (EvRotate b) →
      a ≠ b ∧ b ∈ _available_servers api
      ∧ events got !! S (S i) = Some (EvGet b endpoint params).
Proof.
  intros Hknown Hlen got. subst got.
  remember (Z.to_nat (3 - retry_count)) as n eqn:Hn. symmetry in Hn.
  revert retry_count api net Hn Hknown Hlen.
  assert (Hone : ∀ net1 api out, on_known_server api →
            let got := mkGot net1 api out [EvGet (_base_url api) endpoint params] in
            _available_servers (api_after got) = _available_servers api
            ∧ on_known_server (api_after got)
            ∧ ∀ i a endpoint' params' b,
                events got !! i = Some (EvGet a endpoint' params') →
                events got !! S i = Some (EvRotate b) →
                a ≠ b ∧ b ∈ _available_servers api
                ∧ events got !! S (S i) = Some (EvGet b endpoint params)).
  { intros net1 api out Hknown. simpl. split; [done|]. split; [done|].
    intros i a endpoint' params' b _ Hnone. done. }
  induction n as [|n IH]; intros retry_count api net Hn Hknown Hlen;
    rewrite _get_body;
    destruct (session_get _ params net) as [net1 [json|e]];
    try exact (Hone _ _ _ Hknown).
  - assert (should_retry retry_count e = false) as ->;
      [|exact (Hone _ _ _ Hknown)].
    unfold should_retry. by rewrite bool_decide_eq_false_2 by lia.
  - destruct (should_retry retry_count e) eqn:Hretry;
      [|exact (Hone _ _ _ Hknown)].
    apply should_retry_lt in Hretry.
    destruct (_rotate_server_elsewhere api net1 Hknown Hlen)
      as (Hservers & Hin & Hne).
    assert (Hknown' : on_known_server (_rotate_server api net1).2).
    { unfold on_known_server. rewrite Hservers. split; [apply Hknown|done]. }
    destruct (IH (retry_count + 1) (_rotate_server api net1).2
                (_rotate_server api net1).1 ltac:(lia) Hknown'
                ltac:(by rewrite Hservers))
      as (IHservers & IHknown & IHsteps).
    unfold after. cbn [events api_after app].
    split; [by rewrite IHservers|]. split; [done|].
    intros [|[|i]] a endpoint' params' b Hget Hrot.
    + injection Hget as <- <- <-. injection Hrot as <-.
      split; [done|]. split; [done|].
      pose proof (_get_head endpoint params (retry_count + 1)
                    (_rotate_server api net1).2 (_rotate_server api net1).1)
        as Hhead.
      rewrite head_lookup in Hhead. exact Hhead.
    + discriminate Hget.
    + cbn [lookup list_lookup] in Hget, Hrot |- *.
      destruct (IHsteps i a endpoint' params' b Hget Hrot) as (? & Hb & ?).
      split; [done|]. split; [by rewrite <- Hservers|done].
Qed.

End Client.

(** A directory with two servers; the first two requests meet a 503. The
    client goes from [a] to [b] and back to [a], where the third request
    succeeds. A 404 is given to the caller at once. *)
Definition demo_get (answers : list (Outcome Z)) (url : string) (params : unit)
    (n : nat) : nat * Outcome Z :=
  (S n, default (Returned 0) (answers !! n)).

Definition demo_lookups (n : nat) : nat * list (option string) :=
  (n, [Some "a"; Some "b"; Some "a"]).

Definition demo_choice (servers : list string) (n : nat) : nat * string :=
  (n, default "" (head servers)).

Definition demo_api : RadioBrowserAPI :=
  mkRadioBrowserAPI "https://a" ["https://a"].

Definition unavailable : RequestError := mkRequestError (Some 503) "Service Unavailable".

Definition not_found : RequestError := mkRequestError (Some 404) "Not Found".

Lemma get_failover_spec_witness :
  let get := demo_get [Raised unavailable; Raised unavailable; Returned 42] in
  let rotated := _rotate_server demo_lookups demo_choice demo_api 1%nat in
  _get get demo_lookups demo_choice String.append "stations" () 0 demo_api 0%nat
  = after [EvGet "https://a" "stations" (); EvRotate (_base_url rotated.2)]
      (_get get demo_lookups demo_choice String.append "stations" () (0 + 1)
         rotated.2 rotated.1).
Proof.
  intros get rotated.
  apply (proj1 (get_failover_spec get demo_lookups demo_choice String.append
                  "stations" () 0 demo_api 0%nat) 1%nat unavailable).
  - reflexivity.
  - lia.
  - right. exists 503. split; [reflexivity | lia].
Defined.

Example demo_failover :
  let got :=
    _get (demo_get [Raised unavailable; Raised unavailable; Returned 42])
      demo_lookups demo_choice String.append "stations" () 0 demo_api 0%nat in
  outcome got = Returned 42
  ∧ events got
    = [EvGet "https://a" "stations" (); EvRotate "https://b";
       EvGet "https://b" "stations" (); EvRotate "https://a";
       EvGet "https://a" "stations" ()].
Proof. vm_compute. auto. Qed.

Example demo_no_retry :
  let got :=
    _get (demo_get [Raised not_found; Returned 42])
      demo_lookups demo_choice String.append "stations" () 0 demo_api 0%nat in
  outcome got = Raised not_found
  ∧ events got = [EvGet "https://a" "stations" ()].
Proof. vm_compute. auto. Qed.

Example demo_gives_up :
  let got :=
    _get (demo_get (replicate 9 (Raised unavailable)))
      demo_lookups demo_choice String.append "stations" () 0 demo_api 0%nat in
  outcome got = Raised unavailable
  ∧ requests (events got) = 4%nat ∧ rotations (events got) = 3%nat.
Proof. vm_compute. auto. Qed.

(** A client that knows two servers, and a [random.choice] that takes the
    first entry. *)
Definition demo_api2 : RadioBrowserAPI :=
  mkRadioBrowserAPI "https://a" ["https://a"; "https://b"].

Lemma demo_choice_sound : random_choice_sound demo_choice.
Proof. intros [|s l] net Hne; [done|]. simpl. left. Qed.

Lemma demo_api2_known : on_known_server demo_api2.
Proof. split; [apply (bool_decide_unpack _); by vm_compute | left]. Qed.

Lemma rotate_server_moves_witness :
  let api' := (_rotate_server demo_lookups demo_choice demo_api2 0%nat).2 in
  on_known_server api'
  ∧ (_base_url api' = _base_url demo_api2
     ↔ _available_servers api' = [_base_url demo_api2]).
Proof.
  apply (rotate_server_moves demo_lookups demo_choice demo_api2 0%nat).
  - exact demo_choice_sound.
  - apply demo_api2_known.
Defined.

Lemma client_on_known_server_witness :
  let got :=
    _get (demo_get [Raised unavailable; Returned 42])
      demo_lookups demo_choice String.append "stations" () 0 demo_api2 0%nat in
  on_known_server (api_after got)
  ∧ last (events got)
    = Some (EvGet (_base_url (api_after got)) "stations" ()).
Proof.
  apply (proj2 (client_on_known_server
                  (demo_get [Raised unavailable; Returned 42])
                  demo_lookups demo_choice String.append demo_choice_sound)
           "stations" () 0 demo_api2 0%nat).
  exact demo_api2_known.
Defined.

Lemma get_retries_elsewhere_witness :
  let got :=
    _get (demo_get [Raised unavailable; Returned 42])
      demo_lookups demo_choice String.append "stations" () 0 demo_api2 0%nat in
  _available_servers (api_after got) = _available_servers demo_api2
  ∧ on_known_server (api_after got)
  ∧ ∀ i a endpoint' params' b,
      events got !! i = Some (EvGet a endpoint' params') →
      events got !! S i = Some (EvRotate b) →
      a ≠ b ∧ b ∈ _available_servers demo_api2
      ∧ events got !! S (S i) = Some (EvGet b "stations" ()).
Proof.
  apply (get_retries_elsewhere (demo_get [Raised unavailable; Returned 42])
           demo_lookups demo_choice String.append "stations" () 0 demo_api2
           0%nat).
  - exact demo_api2_known.
  - simpl. lia.
Defined.

End ApiClient.

(** ** database.py *)
Module Database.

(** The [Favorite] dataclass of [models.py]; timestamps are kept as the
    text SQLite stores. *)
Record Favorite := mkFavorite {
  id : option Z;
  name : string;
  url : string;
  station_uuid : option string;
  category_id : option Z;
  order : Z;
  play_count : Z;
  last_played : option string;
  notes : string;
  created_at : option string }.

(** A row of the table [favorites]. *)
Record Row := mkRow {
  row_id : Z;
  row_name : string;
  row_url : string;
  row_station_uuid : option string;
  row_category_id : option Z;
  row_order : Z;
  row_play_count : Z;
  row_last_played : option string;
  row_notes : string;
  row_created_at : string }.

(** The table, in rowid order, and the counter that [AUTOINCREMENT] keeps
    in [sqlite_sequence]. *)
Record DB := mkDB {
  favorites : list Row;
  favorites_seq : Z }.

(** [Favorite(id=row["id"], ...)]. *)
Definition Favorite_of_row (r : Row) : Favorite :=
  mkFavorite (Some (row_id r)) (row_name r) (row_url r) (row_station_uuid r)
    (row_category_id r) (row_order r) (row_play_count r) (row_last_played r)
    (row_notes r) (Some (row_created_at r)).

(** [SELECT MAX("order") FROM favorites]: [NULL] on an empty table. *)
Fixpoint max_order (rows : list Row) : option Z :=
  match rows with
  | [] => None
  | r :: rows' =>
      match max_order rows' with
      | None => Some (row_order r)
      | Some m => Some (Z.max (row_order r) m)
      end
  end.

(** The largest rowid in the table, 0 when it is empty. *)
Definition max_rowid (rows : list Row) : Z :=
  foldr (λ r m, Z.max (row_id r) m) 0 rows.

(** Python's [x or 0] on an optional integer. *)
Definition or_zero (x : option Z) : Z :=
  match x with
  | Some v => if bool_decide (v = 0) then 0 else v
  | None => 0
  end.

(** [add_favorite]; [now] is [CURRENT_TIMESTAMP]. Returns [lastrowid]. *)
Definition add_favorite (now : string) (favorite : Favorite) (db : DB)
  : DB * Z :=
  let next_order := or_zero (max_order (favorites db)) + 1 in
  let rowid := Z.max (favorites_seq db) (max_rowid (favorites db)) + 1 in
  let row :=
    mkRow rowid (name favorite) (url favorite) (station_uuid favorite)
      (category_id favorite) next_order 0 None (notes favorite) now in
  (mkDB (favorites db ++ [row]) rowid, rowid).

(** [ORDER BY "order", name]: by number, then by the bytes of the name. *)
Definition row_le (r1 r2 : Row) : Prop :=
  row_order r1 < row_order r2
  ∨ (row_order r1 = row_order r2
     ∧ String.leb (row_name r1) (row_name r2) = true).

#[global] Instance row_le_dec : RelDecision row_le.
Proof. intros r1 r2. unfold row_le. apply _. Defined.

(** [WHERE category_id = ?], present only when a category is given. *)
Definition in_category (category_id : option Z) (r : Row) : Prop :=
  match category_id with
  | Some c => row_category_id r = Some c
  | None => True
  end.

#[global] Instance in_category_dec category_id r :
  Decision (in_category category_id r).
Proof. destruct category_id; simpl; apply _. Defined.

(** [LIMIT ? OFFSET ?]: SQLite reads a negative limit as no limit and a
    negative offset as 0. *)
Definition limit_offset (limit : option Z) (offset : Z) (rows : list Row)
  : list Row :=
  match limit with
  | None => rows
  | Some n =>
      let rest := drop (Z.to_nat offset) rows in
      if bool_decide (n < 0) then rest else take (Z.to_nat n) rest
  end.

(** The rows [get_favorites] selects, then the list it returns. *)
Definition select_favorites (category_id : option Z) (limit : option Z)
    (offset : Z) (db : DB) : list Row :=
  limit_offset limit offset
    (merge_sort row_le (filter (in_category category_id) (favorites db))).

Definition get_favorites (category_id : option Z) (limit : option Z)
    (offset : Z) (db : DB) : list Favorite :=
  Favorite_of_row <$> select_favorites category_id limit offset db.

(** *** The order of the rows *)

Lemma ascii_compare_refl c : Ascii.compare c c = Eq.
Proof. unfold Ascii.compare. apply N.compare_refl. Qed.

Lemma ascii_compare_lt_trans c1 c2 c3 :
  Ascii.compare c1 c2 = Lt → Ascii.compare c2 c3 = Lt → Ascii.compare c1 c3 = Lt.
Proof.
  unfold Ascii.compare. rewrite !N.compare_lt_iff. apply N.lt_trans.
Qed.

Lemma string_compare_le_trans : ∀ s1 s2 s3,
  String.compare s1 s2 ≠ Gt → String.compare s2 s3 ≠ Gt →
  String.compare s1 s3 ≠ Gt.
Proof.
  induction s1 as [|c1 s1 IH]; intros [|c2 s2] [|c3 s3]; simpl; try done.
  destruct (Ascii.compare c1 c2) eqn:H12; [|clear IH|done];
    (destruct (Ascii.compare c2 c3) eqn:H23; [| |done]).
  - apply Ascii.compare_eq_iff in H12, H23. subst.
    rewrite ascii_compare_refl. apply IH.
  - apply Ascii.compare_eq_iff in H12. subst. by rewrite H23.
  - apply Ascii.compare_eq_iff in H23. subst. by rewrite H12.
  - by rewrite (ascii_compare_lt_trans _ _ _ H12 H23).
Qed.

Lemma string_leb_trans s1 s2 s3 :
  String.leb s1 s2 = true → String.leb s2 s3 = true → String.leb s1 s3 = true.
Proof.
  unfold String.leb. intros H12 H23.
  pose proof (string_compare_le_trans s1 s2 s3) as Htrans.
  destruct (String.compare s1 s2); try discriminate;
    destruct (String.compare s2 s3); try discriminate;
    destruct (String.compare s1 s3); try reflexivity;
    exfalso; by apply Htrans.
Qed.

#[global] Instance row_le_total : Total row_le.
Proof.
  intros r1 r2. unfold row_le.
  destruct (Z.lt_trichotomy (row_order r1) (row_order r2)) as [?|[Heq|?]];
    [tauto| |tauto].
  destruct (String.leb_total (row_name r1) (row_name r2)); [left|right];
    right; split; congruence.
Qed.

#[global] Instance row_le_trans : Transitive row_le.
Proof.
  intros r1 r2 r3 [H12|[H12 N12]] [H23|[H23 N23]]; unfold row_le;
    [left; lia..|].
  right. split; [lia|]. by eapply string_leb_trans.
Qed.







(** Three favourites added to an empty table, then listed. *)
Definition station (name : string) (category_id : Z) : Favorite :=
  mkFavorite None name "http://x" None (Some category_id) 0 0 None "" None.

Definition demo_db2 : DB :=
  fst (add_favorite "2025-01-02" (station "Alpha" 2)
         (fst (add_favorite "2025-01-01" (station "Beta" 1) (mkDB [] 0)))).

Definition demo_db : DB :=
  fst (add_favorite "2025-01-03" (station "Gamma" 1) demo_db2).


Example demo_get_favorites :
  (λ f, (name f, order f)) <$> get_favorites None None 0 demo_db
  = [("Beta", 1); ("Alpha", 2); ("Gamma", 3)]
  ∧ (λ f, (name f, order f)) <$> get_favorites (Some 1) None 0 demo_db
    = [("Beta", 1); ("Gamma", 3)].
Proof. vm_compute. auto. Qed.

(** *** The other operations on favourites *)

(** [get_favorite_by_id]: the first row with this id, as a [Favorite]. *)
Definition get_favorite_by_id (favorite_id : Z) (db : DB) : option Favorite :=
  Favorite_of_row <$> head (filter (λ r, row_id r = favorite_id) (favorites db)).

(** The row an [UPDATE favorites SET name = ?, ...] of [update_favorite]
    leaves. *)
Definition update_row (favorite : Favorite) (r : Row) : Row :=
  mkRow (row_id r) (name favorite) (url favorite) (station_uuid favorite)
    (category_id favorite) (order favorite) (row_play_count r)
    (row_last_played r) (notes favorite) (row_created_at r).

(** [update_favorite]; [WHERE id = ?] matches no row when [favorite.id] is
    [None]. Returns [rowcount > 0]. *)
Definition update_favorite (favorite : Favorite) (db : DB) : DB * bool :=
  (mkDB ((λ r, if decide (id favorite = Some (row_id r))
               then update_row favorite r else r) <$> favorites db)
     (favorites_seq db),
   bool_decide (Exists (λ r, id favorite = Some (row_id r)) (favorites db))).

(** [delete_favorite]. Returns [rowcount > 0]. *)
Definition delete_favorite (favorite_id : Z) (db : DB) : DB * bool :=
  (mkDB (filter (λ r, row_id r ≠ favorite_id) (favorites db))
     (favorites_seq db),
   bool_decide (Exists (λ r, row_id r = favorite_id) (favorites db))).

(** [favorite_exists]. *)
Definition favorite_exists (url : string) (db : DB) : bool :=
  bool_decide (Exists (λ r, row_url r = url) (favorites db)).

(** [increment_play_count]; [now] is [datetime.now().isoformat()]. *)
Definition increment_play_count (now : string) (favorite_id : Z) (db : DB)
  : DB :=
  mkDB ((λ r, if decide (row_id r = favorite_id)
              then mkRow (row_id r) (row_name r) (row_url r)
                     (row_station_uuid r) (row_category_id r) (row_order r)
                     (row_play_count r + 1) (Some now) (row_notes r)
                     (row_created_at r)
              else r) <$> favorites db)
    (favorites_seq db).

Definition with_order (new_order : Z) (r : Row) : Row :=
  mkRow (row_id r) (row_name r) (row_url r) (row_station_uuid r)
    (row_category_id r) new_order (row_play_count r) (row_last_played r)
    (row_notes r) (row_created_at r).

(** One [UPDATE favorites SET "order" = ? WHERE id = ?]. *)
Definition set_order (fav_id new_order : Z) (db : DB) : DB :=
  mkDB ((λ r, if decide (row_id r = fav_id) then with_order new_order r else r)
          <$> favorites db)
    (favorites_seq db).

(** [reorder_favorites]: one [UPDATE] for each item of the dict. *)
Definition reorder_favorites (order_map : gmap Z Z) (db : DB) : DB :=
  foldl (λ db item, set_order item.1 item.2 db) db (map_to_list order_map).

(** [{f.id: i for i, f in enumerate(favorites)}]: a later entry with the
    same key replaces the earlier one. *)
Definition order_map_of (favorites : list Row) : gmap Z Z :=
  foldl (λ m item, <[item.1 := item.2]> m) ∅
    (imap (λ i f, (row_id f, Z.of_nat i)) favorites).

(** [move_favorite]. The list is the one [get_favorites()] returns; each of
    its [Favorite]s carries the id of its row, so the rows stand for
    them. *)
Definition move_favorite (favorite_id direction : Z) (db : DB) : DB * bool :=
  let favorites := select_favorites None None 0 db in
  match list_find (λ f, row_id f = favorite_id) favorites with
  | None => (db, false)
  | Some (idx, moved) =>
      let new_idx := Z.of_nat idx + direction in
      if bool_decide (new_idx < 0 ∨ new_idx >= Z.of_nat (length favorites))
      then (db, false)
      else
        let other := default moved (favorites !! Z.to_nat new_idx) in
        let favorites :=
          <[Z.to_nat new_idx := moved]> (<[idx := other]> favorites) in
        (reorder_favorites (order_map_of favorites) db, true)
  end.

(** An entry of the [favorites] list of an exported file, with the
    defaults of [fav_data.get]. *)
Record FavData := mkFavData {
  fav_name : string;
  fav_url : string;
  fav_station_uuid : option string;
  fav_notes : string }.

(** The favourites loop of [import_favorites_json], one entry at a time;
    every entry comes with the time at which its turn comes. The number is
    [favorites_imported]. *)
Definition import_one (acc : DB * Z) (item : string * FavData) : DB * Z :=
  let '(db, favorites_imported) := acc in
  let '(now, fav_data) := item in
  if favorite_exists (fav_url fav_data) db
  then (db, favorites_imported)
  else
    ((add_favorite now
        (mkFavorite None (fav_name fav_data) (fav_url fav_data)
           (fav_station_uuid fav_data) None 0 0 None
           (fav_notes fav_data) (Some now)) db).1,
     favorites_imported + 1).

Definition import_favorites (data : list (string * FavData)) (db : DB)
  : DB * Z :=
  foldl import_one (db, 0) data.

(** The ids and the urls of the table. *)
Definition ids (db : DB) : list Z := row_id <$> favorites db.


(** What [PRIMARY KEY AUTOINCREMENT] keeps: no id twice, and no id above
    the counter. *)
Definition ids_ok (db : DB) : Prop :=
  NoDup (ids db) ∧ ∀ k, k ∈ ids db → 0 < k <= favorites_seq db.

Lemma max_rowid_bound (rows : list Row) r :
  r ∈ rows → row_id r <= max_rowid rows.
Proof.
  unfold max_rowid. induction rows as [|r' rows IH]; simpl.
  - by intros ?%elem_of_nil.
  - intros [->|Hr]%elem_of_cons; [lia|]. specialize (IH Hr). lia.
Qed.

Lemma max_rowid_nonneg (rows : list Row) : 0 <= max_rowid rows.
Proof. unfold max_rowid. induction rows as [|r rows IH]; simpl; lia. Qed.


Lemma get_favorite_by_id_Some favorite_id db :
  is_Some (get_favorite_by_id favorite_id db) ↔ favorite_id ∈ ids db.
Proof.
  unfold get_favorite_by_id, ids. rewrite fmap_is_Some. split.
  - intros [r Hr]. apply head_Some_elem_of, list_elem_of_filter in Hr as [<- Hr].
    by apply list_elem_of_fmap_2.
  - intros (r & -> & Hr)%list_elem_of_fmap.
    assert (Hin : r ∈ filter (λ r0, row_id r0 = row_id r) (favorites db))
      by by apply list_elem_of_filter.
    destruct (filter _ (favorites db)); [by apply elem_of_nil in Hin|].
    by eexists.
Qed.

Lemma get_favorite_by_id_id favorite_id db f :
  get_favorite_by_id favorite_id db = Some f → id f = Some favorite_id.
Proof.
  unfold get_favorite_by_id. intros (r & Hr & ->)%fmap_Some.
  apply head_Some_elem_of, list_elem_of_filter in Hr as [<- Hr]. done.
Qed.

Lemma Exists_id_ids favorite_id db :
  Exists (λ r, row_id r = favorite_id) (favorites db) ↔ favorite_id ∈ ids db.
Proof.
  unfold ids. rewrite Exists_exists, list_elem_of_fmap. split.
  - intros (r & Hr & <-). eauto.
  - intros (r & -> & Hr). eauto.
Qed.



(** X18: [delete_favorite] returns [True] exactly when the id was in the table;
    afterwards the id is not there, every other id is answered as before,
    the counter of ids has not moved, and deleting again returns [False]
    and changes nothing. *)
Theorem delete_favorite_spec favorite_id db :
  let db' := (delete_favorite favorite_id db).1 in
  ((delete_favorite favorite_id db).2 = true
   ↔ is_Some (get_favorite_by_id favorite_id db))
  ∧ get_favorite_by_id favorite_id db' = None
  ∧ (∀ other, other ≠ favorite_id →
       get_favorite_by_id other db' = get_favorite_by_id other db)
  ∧ favorites_seq db' = favorites_seq db
  ∧ delete_favorite favorite_id db' = (db', false).
Proof.
  intros db'.
  assert (Hgone : favorite_id ∉ ids db').
  { subst db'. unfold ids, delete_favorite; simpl.
    intros (r & -> & [Hne _]%list_elem_of_filter)%list_elem_of_fmap. done. }
  split; [|split; [|split; [|split]]].
  - unfold delete_favorite; simpl.
    by rewrite bool_decide_eq_true, Exists_id_ids, get_favorite_by_id_Some.
  - apply eq_None_not_Some. by rewrite get_favorite_by_id_Some.
  - intros other Hother. subst db'. unfold get_favorite_by_id, delete_favorite.
    cbn [fst favorites]. rewrite list_filter_filter. f_equal. f_equal.
    apply list_filter_iff. intros r. split; [tauto|]. intros <-. done.
  - done.
  - unfold delete_favorite at 1. f_equal.
    + destruct db' as [rows seq] eqn:Hdb'. simpl. f_equal.
      assert (Hrows : rows = favorites db') by by rewrite Hdb'.
      rewrite Hrows. subst db'. unfold delete_favorite. cbn [fst favorites].
      rewrite list_filter_filter. apply list_filter_iff. tauto.
    + apply bool_decide_eq_false. by rewrite Exists_id_ids.
Qed.

(** *** What every run keeps *)

Inductive FavoriteOp :=
| DoAdd (now : string) (favorite : Favorite)
| DoUpdate (favorite : Favorite)
| DoDelete (favorite_id : Z)
| DoIncrement (now : string) (favorite_id : Z)
| DoReorder (order_map : gmap Z Z)
| DoMove (favorite_id direction : Z)
| DoImport (data : list (string * FavData)).

Definition run_op (db : DB) (op : FavoriteOp) : DB :=
  match op with
  | DoAdd now favorite => (add_favorite now favorite db).1
  | DoUpdate favorite => (update_favorite favorite db).1
  | DoDelete favorite_id => (delete_favorite favorite_id db).1
  | DoIncrement now favorite_id => increment_play_count now favorite_id db
  | DoReorder order_map => reorder_favorites order_map db
  | DoMove favorite_id direction => (move_favorite favorite_id direction db).1
  | DoImport data => (import_favorites data db).1
  end.

(** The same ids in the same rowid order, and the same counter. *)
Definition same_ids (db db' : DB) : Prop :=
  ids db' = ids db ∧ favorites_seq db' = favorites_seq db.

Lemma same_ids_fmap (f : Row → Row) db :
  (∀ r, row_id (f r) = row_id r) →
  same_ids db (mkDB (f <$> favorites db) (favorites_seq db)).
Proof.
  intros Hf. split; [|done]. unfold ids; simpl.
  induction (favorites db) as [|r rows IH]; [done|].
  rewrite !fmap_cons. by rewrite Hf, IH.
Qed.

Lemma same_ids_set_order fav_id new_order db :
  same_ids db (set_order fav_id new_order db).
Proof. apply same_ids_fmap. intros r. by destruct (decide _). Qed.

Lemma same_ids_reorder_favorites order_map db :
  same_ids db (reorder_favorites order_map db).
Proof.
  unfold reorder_favorites. revert db.
  induction (map_to_list order_map) as [|item items IH]; intros db; [done|].
  destruct (IH (set_order item.1 item.2 db)) as [Hids Hseq].
  destruct (same_ids_set_order item.1 item.2 db) as [Hids' Hseq'].
  split; simpl; congruence.
Qed.

Lemma same_ids_move_favorite favorite_id direction db :
  same_ids db (move_favorite favorite_id direction db).1.
Proof.
  unfold move_favorite.
  destruct (list_find _ _) as [[idx moved]|]; [|done].
  case_bool_decide; [done|]. apply same_ids_reorder_favorites.
Qed.

Lemma ids_add_favorite now favorite db :
  ids (add_favorite now favorite db).1
  = ids db ++ [(add_favorite now favorite db).2]
  ∧ favorites_seq (add_favorite now favorite db).1
    = (add_favorite now favorite db).2
  ∧ favorites_seq db < (add_favorite now favorite db).2
  ∧ ∀ k, k ∈ ids db → k < (add_favorite now favorite db).2.
Proof.
  unfold ids, add_favorite; simpl. rewrite fmap_app.
  split; [done|]. split; [done|]. split; [lia|].
  intros k (r & -> & Hr%max_rowid_bound)%list_elem_of_fmap. lia.
Qed.

Lemma ids_delete_favorite favorite_id db :
  ids (delete_favorite favorite_id db).1
  = filter (λ k, k ≠ favorite_id) (ids db).
Proof.
  unfold ids, delete_favorite; simpl.
  induction (favorites db) as [|r rows IH]; [done|]. rewrite fmap_cons.
  destruct (decide (row_id r = favorite_id)) as [Heq|Hne].
  - rewrite !filter_cons_False by tauto. exact IH.
  - rewrite !filter_cons_True by done. by rewrite fmap_cons, IH.
Qed.

Lemma ids_ok_same db db' : same_ids db db' → ids_ok db → ids_ok db'.
Proof. unfold ids_ok. by intros [-> ->]. Qed.

Lemma ids_ok_add_favorite now favorite db :
  ids_ok db → ids_ok (add_favorite now favorite db).1.
Proof.
  intros [Hnd Hbound]. unfold ids_ok.
  destruct (ids_add_favorite now favorite db) as (-> & -> & Hseq & Hfresh).
  split.
  - apply NoDup_app. split; [done|]. split; [|apply NoDup_singleton].
    intros k Hk ->%list_elem_of_singleton. specialize (Hfresh _ Hk). lia.
  - intros k [Hk| ->%list_elem_of_singleton]%elem_of_app.
    + specialize (Hbound k Hk). lia.
    + unfold add_favorite; simpl.
      pose proof (max_rowid_nonneg (favorites db)). lia.
Qed.

Lemma import_one_eq db n now fav_data :
  import_one (db, n) (now, fav_data)
  = if favorite_exists (fav_url fav_data) db then (db, n)
    else ((add_favorite now
             (mkFavorite None (fav_name fav_data) (fav_url fav_data)
                (fav_station_uuid fav_data) None 0 0 None
                (fav_notes fav_data) (Some now)) db).1,
          n + 1).
Proof. done. Qed.

Lemma import_one_grows acc item :
  ids_ok acc.1 → ids_ok (import_one acc item).1
  ∧ favorites_seq acc.1 <= favorites_seq (import_one acc item).1.
Proof.
  destruct acc as [db n], item as [now fav_data]. rewrite import_one_eq.
  cbn [fst]. intros Hok.
  destruct (favorite_exists _ db); cbn [fst]; [split; [done|lia]|]. split.
  - by apply ids_ok_add_favorite.
  - destruct (ids_add_favorite now
      (mkFavorite None (fav_name fav_data) (fav_url fav_data)
         (fav_station_uuid fav_data) None 0 0 None (fav_notes fav_data)
         (Some now)) db) as (_ & Hseq & ? & _).
    rewrite Hseq. lia.
Qed.

Lemma import_loop_grows data : ∀ acc,
  ids_ok acc.1 → ids_ok (foldl import_one acc data).1
  ∧ favorites_seq acc.1 <= favorites_seq (foldl import_one acc data).1.
Proof.
  induction data as [|item data IH]; intros acc Hok; cbn [foldl];
    [split; [done|lia]|].
  destruct (import_one_grows acc item Hok) as [Hok' Hle].
  destruct (IH _ Hok') as [? ?]. split; [done|lia].
Qed.

Lemma run_op_grows db op :
  ids_ok db → ids_ok (run_op db op)
  ∧ favorites_seq db <= favorites_seq (run_op db op).
Proof.
  intros Hok.
  assert (Hsame : ∀ db', same_ids db db' →
            ids_ok db' ∧ favorites_seq db <= favorites_seq db').
  { intros db' Hsame. split; [by eapply ids_ok_same|].
    destruct Hsame as [_ ->]. lia. }
  destruct op as [now favorite|favorite|favorite_id|now favorite_id|order_map
                  |favorite_id direction|data]; cbn [run_op].
  - split; [by apply ids_ok_add_favorite|].
    destruct (ids_add_favorite now favorite db) as (_ & Hseq & ? & _).
    rewrite Hseq. lia.
  - unfold update_favorite. cbn [fst].
    apply Hsame, same_ids_fmap. intros r. by destruct (decide _).
  - split; [|unfold delete_favorite; simpl; lia].
    destruct Hok as [Hnd Hbound]. unfold ids_ok.
    rewrite ids_delete_favorite. split; [by apply NoDup_filter|].
    intros k [_ Hk]%list_elem_of_filter. by apply Hbound.
  - unfold increment_play_count.
    apply Hsame, same_ids_fmap. intros r. by destruct (decide _).
  - apply Hsame, same_ids_reorder_favorites.
  - apply Hsame, same_ids_move_favorite.
  - by apply (import_loop_grows data (db, 0)).
Qed.

Lemma run_ops_grow ops : ∀ db,
  ids_ok db → ids_ok (foldl run_op db ops)
  ∧ favorites_seq db <= favorites_seq (foldl run_op db ops).
Proof.
  induction ops as [|op ops IH]; intros db Hok; cbn [foldl];
    [split; [done|lia]|].
  destruct (run_op_grows db op Hok) as [Hok' Hle].
  destruct (IH _ Hok') as [? ?]. split; [done|lia].
Qed.

Lemma ids_ok_empty : ids_ok (mkDB [] 0).
Proof.
  split; [apply NoDup_nil_2|]. intros k Hk. by apply elem_of_nil in Hk.
Qed.

Lemma NoDup_ids_filter (P : Row → Prop) `{∀ r, Decision (P r)} (rows : list Row) :
  NoDup (row_id <$> rows) → NoDup (row_id <$> filter P rows).
Proof.
  induction rows as [|r rows IH]; [done|]. rewrite fmap_cons, NoDup_cons.
  intros [Hr Hnd]. destruct (decide (P r)).
  - rewrite filter_cons_True, fmap_cons by done. apply NoDup_cons.
    split; [|by apply IH].
    intros (r' & Hid & [_ Hr']%list_elem_of_filter)%list_elem_of_fmap.
    apply Hr. rewrite Hid. by apply list_elem_of_fmap_2.
  - rewrite filter_cons_False by done. by apply IH.
Qed.

(** X19: Whatever is done to the favourites of a new database, no id is in
    the table twice, every id is positive and at most the counter of ids,
    and [get_favorites] lists no id twice. *)
Theorem favorite_ids_unique ops category :
  let db := foldl run_op (mkDB [] 0) ops in
  NoDup (ids db)
  ∧ (∀ k, k ∈ ids db → 0 < k <= favorites_seq db)
  ∧ NoDup (id <$> get_favorites category None 0 db).
Proof.
  intros db. destruct (run_ops_grow ops _ ids_ok_empty) as [[Hnd Hbound] _].
  fold db in Hnd, Hbound. split; [done|]. split; [done|].
  unfold get_favorites. rewrite <- list_fmap_compose.
  change (id ∘ Favorite_of_row) with (Some ∘ row_id).
  rewrite list_fmap_compose. apply NoDup_fmap_2; [apply _|].
  unfold select_favorites, limit_offset. rewrite merge_sort_Permutation.
  by apply NoDup_ids_filter.
Qed.

(** X20: An id is never given twice: whatever is done in between, deletions
    included, a later [add_favorite] returns an id above every id the
    table has now. *)
Theorem favorite_ids_never_reused db k ops now favorite :
  ids_ok db → k ∈ ids db →
  k < (add_favorite now favorite (foldl run_op db ops)).2.
Proof.
  intros Hok Hk. destruct (run_ops_grow ops db Hok) as [_ Hle].
  destruct Hok as [_ Hbound]. specialize (Hbound k Hk).
  destruct (ids_add_favorite now favorite (foldl run_op db ops))
    as (_ & _ & Hseq & _). lia.
Qed.

(** *** Import *)





(** *** Moving a favourite *)















Lemma demo_db_ids_ok : ids_ok demo_db.
Proof.
  apply (run_ops_grow [DoAdd "2025-01-01" (station "Beta" 1);
                       DoAdd "2025-01-02" (station "Alpha" 2);
                       DoAdd "2025-01-03" (station "Gamma" 1)] _ ids_ok_empty).
Qed.


Lemma favorite_ids_never_reused_witness :
  3 < (add_favorite "2025-01-04" (station "Delta" 1)
         (foldl run_op demo_db [DoDelete 3])).2.
Proof.
  apply (favorite_ids_never_reused demo_db 3 [DoDelete 3]).
  - exact demo_db_ids_ok.
  - apply (bool_decide_unpack _). by vm_compute.
Defined.

Example demo_move_favorite :
  (λ f, (name f, order f))
    <$> get_favorites None None 0 (move_favorite 3 (-1) demo_db).1
  = [("Beta", 0); ("Gamma", 1); ("Alpha", 2)].
Proof. by vm_compute. Qed.

End Database.

(** ** plugin_manager.py *)
Module Plugins.

Import Events.

Inductive PluginState := UNLOADED | LOADED | ACTIVE | ERROR | DISABLED.

Record PluginMetadata := mkPluginMetadata {
  id : string;
  name : string;
  version : string;
  author : string;
  description : string;
  min_app_version : string;
  dependencies : list string;
  homepage : string }.

(** What the manager sends with its events: the metadata of a plugin, or
    the dictionary [{"plugin_id": ..., "error": ...}]. *)
Inductive Payload :=
| MetadataPayload (metadata : PluginMetadata)
| ErrorPayload (plugin_id error : string).

(** How a call into plugin code ends. *)
Inductive Ends (A : Type) :=
| Returns (value : A)
| Raises (error : string).
Arguments Returns {A} value.
Arguments Raises {A} error.

(** A plugin class, as far as the manager can tell: its class attributes,
    whether its constructor raises, and what [on_load] and [on_unload] do
    to the event bus they are given and how they end. *)
Record PluginClass := mkPluginClass {
  class_name : string;
  PLUGIN_ID : string;
  PLUGIN_NAME : string;
  PLUGIN_VERSION : string;
  PLUGIN_AUTHOR : string;
  PLUGIN_DESCRIPTION : string;
  init_raises : option string;
  on_load : EventBus → EventBus * Ends bool;
  on_unload : EventBus → EventBus * Ends bool }.

(** A plugin object. *)
Record Plugin := mkPlugin {
  plugin_class : PluginClass;
  _state : PluginState;
  _metadata : PluginMetadata }.

Record PluginManager := mkPluginManager {
  _plugins : gmap string Plugin;
  _plugin_classes : gmap string PluginClass;
  _event_bus : EventBus }.

(** Python's [a or b] on strings. *)
Definition or_else (a b : string) : string :=
  if bool_decide (a = "") then b else a.

(** The metadata [PluginBase.__init__] builds from the class attributes. *)
Definition metadata_of (c : PluginClass) : PluginMetadata :=
  mkPluginMetadata (or_else (PLUGIN_ID c) (class_name c))
    (or_else (PLUGIN_NAME c) (class_name c)) (PLUGIN_VERSION c)
    (PLUGIN_AUTHOR c) (PLUGIN_DESCRIPTION c) "2024.2.0" [] "".

(** [plugin_class(self._event_bus)]: a new object in state [UNLOADED],
    unless the constructor raises. *)
Definition instantiate (c : PluginClass) : Ends Plugin :=
  match init_raises c with
  | Some error => Raises error
  | None => Returns (mkPlugin c UNLOADED (metadata_of c))
  end.

(** What a call of the manager does besides changing its own state. *)
Inductive Effect :=
| Instantiate (plugin_id : string)
| Emit (event_type : EventType) (data : Payload).

Record Loaded := mkLoaded {
  manager_after : PluginManager;
  result : bool;
  effects : list Effect }.

Definition with_bus (bus : EventBus) (pm : PluginManager) : PluginManager :=
  mkPluginManager (_plugins pm) (_plugin_classes pm) bus.

(** The [except Exception as e] branch of [load_plugin]. *)
Definition load_failed (env : Env Payload) (plugin_id error : string)
    (bus : EventBus) (pm : PluginManager) : Loaded :=
  let e := emit env PLUGIN_ERROR (ErrorPayload plugin_id error) bus in
  mkLoaded (with_bus (bus_after e) pm) false
    [Instantiate plugin_id; Emit PLUGIN_ERROR (ErrorPayload plugin_id error)].

(** [load_plugin]. *)
Definition load_plugin (env : Env Payload) (plugin_id : string)
    (pm : PluginManager) : Loaded :=
  match _plugins pm !! plugin_id with
  | Some _ => mkLoaded pm true []
  | None =>
      match _plugin_classes pm !! plugin_id with
      | None => mkLoaded pm false []
      | Some c =>
          match instantiate c with
          | Raises error => load_failed env plugin_id error (_event_bus pm) pm
          | Returns plugin =>
              match on_load c (_event_bus pm) with
              | (bus, Returns true) =>
                  let plugin := mkPlugin c LOADED (_metadata plugin) in
                  let e :=
                    emit env PLUGIN_LOADED (MetadataPayload (_metadata plugin))
                      bus in
                  mkLoaded
                    (mkPluginManager (<[plugin_id := plugin]> (_plugins pm))
                       (_plugin_classes pm) (bus_after e))
                    true
                    [Instantiate plugin_id;
                     Emit PLUGIN_LOADED (MetadataPayload (_metadata plugin))]
              | (bus, Returns false) =>
                  mkLoaded (with_bus bus pm) false [Instantiate plugin_id]
              | (bus, Raises error) => load_failed env plugin_id error bus pm
              end
          end
      end
  end.

(** [is_plugin_loaded]. *)
Definition is_plugin_loaded (plugin_id : string) (pm : PluginManager) : bool :=
  bool_decide (is_Some (_plugins pm !! plugin_id)).




(** A manager that has discovered two classes: one whose [on_load]
    subscribes a callback (as [statistics_plugin.py] does) and succeeds,
    and one whose [on_load] gives up. *)
Definition statistics_class : PluginClass :=
  mkPluginClass "StatisticsPlugin" "statistics" "Statistics" "1.0.0" "" ""
    None
    (λ bus, (subscribe PLAYBACK_STARTED 1 false bus, Returns true))
    (λ bus, (bus, Returns true)).

Definition broken_class : PluginClass :=
  mkPluginClass "Broken" "broken" "Broken" "1.0.0" "" "" None
    (λ bus, (bus, Returns false)) (λ bus, (bus, Returns true)).

Definition demo_manager : PluginManager :=
  mkPluginManager ∅
    (<["statistics" := statistics_class]> (<["broken" := broken_class]> ∅))
    EventBus_init.

Definition quiet : Env Payload := mkEnv (λ _, true) (λ _ _, false).


Example demo_load_plugin :
  let first := load_plugin quiet "statistics" demo_manager in
  let again := load_plugin quiet "statistics" (manager_after first) in
  result first = true
  ∧ effects first
    = [Instantiate "statistics";
       Emit PLUGIN_LOADED (MetadataPayload (metadata_of statistics_class))]
  ∧ (_state <$> _plugins (manager_after first) !! "statistics") = Some LOADED
  ∧ result again = true ∧ effects again = []
  ∧ result (load_plugin quiet "broken" demo_manager) = false
  ∧ is_plugin_loaded "broken"
      (manager_after (load_plugin quiet "broken" demo_manager)) = false
  ∧ result (load_plugin quiet "missing" demo_manager) = false.
Proof. vm_compute. repeat split. Qed.

(** *** Unloading, reloading, enabling and disabling *)

(** [unload_plugin]. *)
Definition unload_plugin (env : Env Payload) (plugin_id : string)
    (pm : PluginManager) : Loaded :=
  match _plugins pm !! plugin_id with
  | None => mkLoaded pm true []
  | Some plugin =>
      match on_unload (plugin_class plugin) (_event_bus pm) with
      | (bus, Returns true) =>
          let e :=
            emit env PLUGIN_UNLOADED (MetadataPayload (_metadata plugin)) bus in
          mkLoaded
            (mkPluginManager (delete plugin_id (_plugins pm))
               (_plugin_classes pm) (bus_after e))
            true
            [Emit PLUGIN_UNLOADED (MetadataPayload (_metadata plugin))]
      | (bus, Returns false) => mkLoaded (with_bus bus pm) false []
      | (bus, Raises error) => mkLoaded (with_bus bus pm) false []
      end
  end.

(** [reload_plugin]. *)
Definition reload_plugin (env : Env Payload) (plugin_id : string)
    (pm : PluginManager) : Loaded :=
  match _plugins pm !! plugin_id with
  | Some _ =>
      let unloaded := unload_plugin env plugin_id pm in
      if negb (result unloaded) then
        mkLoaded (manager_after unloaded) false (effects unloaded)
      else
        let loaded := load_plugin env plugin_id (manager_after unloaded) in
        mkLoaded (manager_after loaded) (result loaded)
          (effects unloaded ++ effects loaded)
  | None => load_plugin env plugin_id pm
  end.

(** [list.remove]: without the first occurrence. *)
Fixpoint remove (x : string) (l : list string) : list string :=
  match l with
  | [] => []
  | y :: l' => if decide (y = x) then l' else y :: remove x l'
  end.

(** [enable_plugin]; [enabled] is [self._config.enabled_plugins], and the
    list returned with the outcome is its value afterwards. *)
Definition enable_plugin (env : Env Payload) (plugin_id : string)
    (enabled : list string) (pm : PluginManager) : list string * Loaded :=
  (if bool_decide (plugin_id ∈ enabled) then enabled
   else enabled ++ [plugin_id],
   match _plugins pm !! plugin_id with
   | None => load_plugin env plugin_id pm
   | Some _ => mkLoaded pm true []
   end).

(** [disable_plugin]. *)
Definition disable_plugin (env : Env Payload) (plugin_id : string)
    (enabled : list string) (pm : PluginManager) : list string * Loaded :=
  (if bool_decide (plugin_id ∈ enabled) then remove plugin_id enabled
   else enabled,
   match _plugins pm !! plugin_id with
   | Some _ => unload_plugin env plugin_id pm
   | None => mkLoaded pm true []
   end).

















(** *** What every run of the manager keeps *)

Inductive ManagerOp :=
| DoLoad (plugin_id : string)
| DoUnload (plugin_id : string)
| DoReload (plugin_id : string)
| DoEnable (plugin_id : string)
| DoDisable (plugin_id : string).

(** One call, on the list of enabled plugins and the manager; it comes
    with the state of the callbacks at the time. *)
Definition run_op (st : list string * PluginManager)
    (step : Env Payload * ManagerOp) : list string * PluginManager :=
  let '(enabled, pm) := st in
  let '(env, op) := step in
  match op with
  | DoLoad plugin_id => (enabled, manager_after (load_plugin env plugin_id pm))
  | DoUnload plugin_id =>
      (enabled, manager_after (unload_plugin env plugin_id pm))
  | DoReload plugin_id =>
      (enabled, manager_after (reload_plugin env plugin_id pm))
  | DoEnable plugin_id =>
      ((enable_plugin env plugin_id enabled pm).1,
       manager_after (enable_plugin env plugin_id enabled pm).2)
  | DoDisable plugin_id =>
      ((disable_plugin env plugin_id enabled pm).1,
       manager_after (disable_plugin env plugin_id enabled pm).2)
  end.










End Plugins.
